(** * Termo: a multi-board word-guessing game (src/App.tsx)

    A shallow embedding of the game logic of the [App] component: the letter
    scorer [getGuessStatuses], the keyboard aggregation [getKeyStatuses], the
    solution selection loop of [initGame], the hint handler [handleHint] and
    the key handler [onKeyDown], with the properties of the specification
    stated and proved over them.

    Conventions.  A JavaScript string is a [string]; [split('')] gives its
    characters as a [list ascii].  A React state cell is a field of the record
    [State]; a handler is a function from the state of the render it closes
    over to the state after all its setters have run.  [Math.random] is an
    explicit argument: a natural number [r] stands for the draw, and
    [Math.floor(Math.random() * n)] is [r mod n]. *)

From stdpp Require Import base decidable option list numbers strings gmap sets fin_maps.
From Stdlib Require Import Ascii ZArith Lia.

Local Open Scope Z_scope.
Local Open Scope nat_scope.

(** ** Types (the repository's types module) *)

Inductive CharStatus := correct | present | absent | initial.

Inductive GameStatus := playing | won | lost.

#[global] Instance CharStatus_eq_dec : EqDecision CharStatus.
Proof. solve_decision. Defined.

#[global] Instance GameStatus_eq_dec : EqDecision GameStatus.
Proof. solve_decision. Defined.

(** ** JavaScript arrays *)

Module JS.

(** [split s] is [s.split('')]. *)
Definition split (s : string) : list ascii := String.list_ascii_of_string s.

(** [l.forEach((x, i) => ...)] with the state the callback mutates passed
    along; [forEach_from] starts counting at [i]. *)
Fixpoint forEach_from {A St : Type} (f : St -> A -> nat -> St) (i : nat) (l : list A) (s : St) : St :=
  match l with
  | [] => s
  | x :: l' => forEach_from f (S i) l' (f s x i)
  end.

Definition forEach {A St : Type} (f : St -> A -> nat -> St) (l : list A) (s : St) : St :=
  forEach_from f 0 l s.

(** [l.findIndex((x, i) => p)]; [None] is the source's [-1]. *)
Fixpoint findIndex_from {A : Type} (p : A -> nat -> bool) (i : nat) (l : list A) : option nat :=
  match l with
  | [] => None
  | x :: l' => if p x i then Some i else findIndex_from p (S i) l'
  end.

Definition findIndex {A : Type} (p : A -> nat -> bool) (l : list A) : option nat :=
  findIndex_from p 0 l.

(** An array that may have holes: [None] is a slot that reads [undefined].
    [sparse_set i x l] is [l[i] = x]: in range it overwrites, out of range the
    array grows and the slots in between stay empty. *)
Definition sparse_set {A : Type} (i : nat) (x : A) (l : list (option A)) : list (option A) :=
  if decide (i < length l) then <[i := Some x]> l
  else l ++ replicate (i - length l) None ++ [Some x].

(** [l[i]] on such an array: [None] is [undefined]. *)
Definition sparse_get {A : Type} (l : list (option A)) (i : nat) : option A :=
  mjoin (l !! i).

(** [l[i] = x] on an array whose slots are all filled, for writes the
    well-formedness of the game state keeps in range.  Out of range the array
    grows; the slots in between, which JavaScript leaves empty, hold [d]. *)
Definition assign {A : Type} (d : A) (i : nat) (x : A) (l : list A) : list A :=
  if decide (i < length l) then <[i := x]> l
  else l ++ replicate (i - length l) d ++ [x].

(** Truthiness of [l[i]] for a boolean array: out of range is [undefined]. *)
Definition truthy_at (l : list bool) (i : nat) : bool :=
  match l !! i with Some b => b | None => false end.

(** [Math.floor(Math.random() * n)] for the draw [r]: an index below [n], and
    [0] when [n] is [0]. *)
Definition random_index (r n : nat) : nat :=
  match n with 0 => 0 | S _ => r mod n end.

(** [w.includes(" ")]. *)
Definition includes_space (w : string) : bool :=
  bool_decide (" "%char ∈ split w).

(** [s[i]]: the one-character string at [i], [None] for [undefined]. *)
Definition char_at (s : string) (i : nat) : option string :=
  (fun c => String c EmptyString) <$> String.get i s.

End JS.

(** ** The scorer *)

Section Scorer.

Variable WORD_LENGTH : nat.

Definition scorer_state : Type := list (option CharStatus) * list bool.

(** Pass 1 of [getGuessStatuses]: the body of the first [forEach]. *)
Definition green_step (splitSolution : list ascii)
    (st : scorer_state) (letter : ascii) (i : nat) : scorer_state :=
  let '(statuses, solutionCharsTaken) := st in
  if decide (splitSolution !! i = Some letter)
  then (JS.sparse_set i correct statuses, <[i := true]> solutionCharsTaken)
  else st.

(** Pass 2 of [getGuessStatuses]: the body of the second [forEach]. *)
Definition yellow_step (splitSolution : list ascii)
    (st : scorer_state) (letter : ascii) (i : nat) : scorer_state :=
  let '(statuses, solutionCharsTaken) := st in
  if decide (JS.sparse_get statuses i = Some correct) then st
  else
    let indexOfCharInSolution :=
      JS.findIndex
        (fun sLetter index =>
           bool_decide (sLetter = letter) && negb (JS.truthy_at solutionCharsTaken index))
        splitSolution in
    match indexOfCharInSolution with
    | Some j => (JS.sparse_set i present statuses, <[j := true]> solutionCharsTaken)
    | None => st
    end.

Definition getGuessStatuses (guess solutionWord : string) : list (option CharStatus) :=
  let splitSolution := JS.split solutionWord in
  let splitGuess := JS.split guess in
  let statuses := replicate WORD_LENGTH (Some absent) in
  let solutionCharsTaken := map (fun _ => false) splitSolution in
  let st1 := JS.forEach (green_step splitSolution) splitGuess (statuses, solutionCharsTaken) in
  let st2 := JS.forEach (yellow_step splitSolution) splitGuess st1 in
  fst st2.

End Scorer.

(** *** The reference scorer of the specification

    Written from the specification's two passes: the consumed positions of the
    solution are a set, and the statuses are produced position by position. *)

Module Reference.

(** Pass 1: position [i] is an exact match. *)
Definition exact (guess solution : list ascii) (i : nat) : bool :=
  match guess !! i, solution !! i with
  | Some g, Some s => bool_decide (g = s)
  | _, _ => false
  end.

(** The lowest unconsumed position of [solution] that holds [c]. *)
Definition lowest_unconsumed (solution : list ascii) (consumed : gset nat) (c : ascii) : option nat :=
  head (filter (fun j => solution !! j = Some c ∧ j ∉ consumed) (seq 0 (length solution))).

(** Pass 2 over the guess positions, left to right. *)
Fixpoint presence (guess solution : list ascii) (positions : list nat) (consumed : gset nat)
  : list CharStatus :=
  match positions with
  | [] => []
  | i :: rest =>
      if exact guess solution i then correct :: presence guess solution rest consumed
      else
        match guess !! i ≫= lowest_unconsumed solution consumed with
        | Some j => present :: presence guess solution rest ({[ j ]} ∪ consumed)
        | None => absent :: presence guess solution rest consumed
        end
  end.

Definition score (guess solution : string) : list CharStatus :=
  let g := JS.split guess in
  let s := JS.split solution in
  let positions := seq 0 (length g) in
  presence g s positions (list_to_set (filter (fun i => exact g s i = true) positions)).

End Reference.


(** ** The keyboard aggregation *)

Section Keyboard.

Variable WORD_LENGTH : nat.

(** The body of the innermost [forEach] of [getKeyStatuses]. *)
Definition key_step (statuses : list (option CharStatus))
    (keyStatuses : gmap ascii CharStatus) (letter : ascii) (i : nat) : gmap ascii CharStatus :=
  let currentStatus := keyStatuses !! letter in
  let newStatus := JS.sparse_get statuses i in
  if decide (currentStatus = Some correct) then keyStatuses
  else if decide (newStatus = Some correct) then <[letter := correct]> keyStatuses
  else if decide (currentStatus = Some present) then keyStatuses
  else if decide (newStatus = Some present) then <[letter := present]> keyStatuses
  else if decide (newStatus = Some absent) then <[letter := absent]> keyStatuses
  else keyStatuses.

Definition board_step (solvedIndices : list bool) (guess : string)
    (keyStatuses : gmap ascii CharStatus) (sol : string) (solIndex : nat) : gmap ascii CharStatus :=
  if JS.truthy_at solvedIndices solIndex then keyStatuses
  else
    let statuses := getGuessStatuses WORD_LENGTH guess sol in
    JS.forEach (key_step statuses) (JS.split guess) keyStatuses.

Definition getKeyStatuses (guesses solutions : list string) (solvedIndices : list bool)
  : gmap ascii CharStatus :=
  JS.forEach
    (fun keyStatuses guess _ =>
       JS.forEach (board_step solvedIndices guess) solutions keyStatuses)
    guesses ∅.

(** Priority of a status: correct > present > absent. *)
Definition priority (st : CharStatus) : nat :=
  match st with correct => 3 | present => 2 | absent => 1 | initial => 0 end.

(** [evidence guesses solutions solvedIndices letter st]: the scorer gives
    [letter] the status [st] at some position of some submitted guess against
    some solution whose board is not solved. *)
Definition evidence (guesses solutions : list string) (solvedIndices : list bool)
    (letter : ascii) (st : CharStatus) : Prop :=
  ∃ guess sol solIndex i,
    guess ∈ guesses ∧ solutions !! solIndex = Some sol ∧
    JS.truthy_at solvedIndices solIndex = false ∧
    JS.split guess !! i = Some letter ∧
    JS.sparse_get (getGuessStatuses WORD_LENGTH guess sol) i = Some st.

End Keyboard.

(** ** The game state *)

(** The texts [showToast] is called with. *)
Inductive Toast :=
| ToastInsufficientPoints (hintCost : Z)
| ToastNoFreeSlot
| ToastIncompleteWord
| ToastUnknownWord
| ToastLevelComplete (turnPoints : option Z)
| ToastGameOver
| ToastPoints (turnPoints : Z).

Record State := mkState {
  level : nat;
  score : Z;
  hintCost : Z;
  solutions : list string;
  guesses : list string;
  currentGuess : list string;
  activeTileIndex : nat;
  gameStatus : GameStatus;
  solvedIndices : list bool;
  revealedHints : gmap nat string;
  hintedSolutionIndex : option nat;
  shakeRow : bool;
  toast : option Toast;
  validGuessesSet : gset string;
  isDictionaryLoaded : bool
}.

(** The game data of a state: every cell but the transient feedback
    ([shakeRow] and [toast]). *)
Definition same_game (s s' : State) : Prop :=
  level s' = level s ∧ score s' = score s ∧ hintCost s' = hintCost s ∧
  solutions s' = solutions s ∧ guesses s' = guesses s ∧
  currentGuess s' = currentGuess s ∧ activeTileIndex s' = activeTileIndex s ∧
  gameStatus s' = gameStatus s ∧ solvedIndices s' = solvedIndices s ∧
  revealedHints s' = revealedHints s ∧
  hintedSolutionIndex s' = hintedSolutionIndex s ∧
  validGuessesSet s' = validGuessesSet s ∧
  isDictionaryLoaded s' = isDictionaryLoaded s.

(** [setShakeRow(shake)] and [showToast(text)]. *)
Definition feedback (shake : bool) (text : Toast) (s : State) : State :=
  {| level := level s; score := score s; hintCost := hintCost s;
     solutions := solutions s; guesses := guesses s;
     currentGuess := currentGuess s; activeTileIndex := activeTileIndex s;
     gameStatus := gameStatus s; solvedIndices := solvedIndices s;
     revealedHints := revealedHints s;
     hintedSolutionIndex := hintedSolutionIndex s;
     shakeRow := shake; toast := Some text;
     validGuessesSet := validGuessesSet s;
     isDictionaryLoaded := isDictionaryLoaded s |}.

Definition setActiveTileIndex (i : nat) (s : State) : State :=
  {| level := level s; score := score s; hintCost := hintCost s;
     solutions := solutions s; guesses := guesses s;
     currentGuess := currentGuess s; activeTileIndex := i;
     gameStatus := gameStatus s; solvedIndices := solvedIndices s;
     revealedHints := revealedHints s;
     hintedSolutionIndex := hintedSolutionIndex s;
     shakeRow := shakeRow s; toast := toast s;
     validGuessesSet := validGuessesSet s;
     isDictionaryLoaded := isDictionaryLoaded s |}.

Definition setCurrentGuess (g : list string) (s : State) : State :=
  {| level := level s; score := score s; hintCost := hintCost s;
     solutions := solutions s; guesses := guesses s;
     currentGuess := g; activeTileIndex := activeTileIndex s;
     gameStatus := gameStatus s; solvedIndices := solvedIndices s;
     revealedHints := revealedHints s;
     hintedSolutionIndex := hintedSolutionIndex s;
     shakeRow := shakeRow s; toast := toast s;
     validGuessesSet := validGuessesSet s;
     isDictionaryLoaded := isDictionaryLoaded s |}.

(** The two setters of the retargeting branch of [handleHint]. *)
Definition setHintTarget (target : option nat) (hints : gmap nat string) (s : State) : State :=
  {| level := level s; score := score s; hintCost := hintCost s;
     solutions := solutions s; guesses := guesses s;
     currentGuess := currentGuess s; activeTileIndex := activeTileIndex s;
     gameStatus := gameStatus s; solvedIndices := solvedIndices s;
     revealedHints := hints;
     hintedSolutionIndex := target;
     shakeRow := shakeRow s; toast := toast s;
     validGuessesSet := validGuessesSet s;
     isDictionaryLoaded := isDictionaryLoaded s |}.

(** ** The component *)

Section Game.

(** The constants the component imports from its constants module are
    parameters of the development. *)
Variable WORD_LENGTH : nat.
Variable WORDS : list string.
Variable VALID_GUESSES : list string.

(** [w.length === WORD_LENGTH && !w.includes(" ")], the filter of both
    word lists. *)
Definition playable (w : string) : bool :=
  bool_decide (String.length w = WORD_LENGTH) && negb (JS.includes_space w).

Definition numWords (lvl : nat) : nat := lvl + 1.
Definition maxChallenges (lvl : nat) : nat := 6 + lvl.

(** *** initGame *)

(** The [while] loop of [initGame], one draw of [Math.random] per iteration.
    The list of draws bounds the iterations: [None] says that the loop is
    still running when the draws are used up.  A slot of [newSolutions] is
    [None] when [validWords[...]] was [undefined] (an empty [validWords]). *)
Fixpoint select_loop (validWords : list string) (n : nat) (draws : list nat)
    (newSolutions : list (option string)) : option (list (option string)) :=
  if decide (length newSolutions < n) then
    match draws with
    | [] => None
    | r :: draws' =>
        let randomWord := validWords !! JS.random_index r (length validWords) in
        if decide (randomWord ∈ newSolutions)
        then select_loop validWords n draws' newSolutions
        else select_loop validWords n draws' (newSolutions ++ [randomWord])
    end
  else Some newSolutions.

Definition select_solutions (lvl : nat) (draws : list nat) : option (list (option string)) :=
  select_loop (filter (fun w => playable w = true) WORDS) (numWords lvl) draws [].

(** [initGame] in a render at level [lvl].  [None]: the loop has not finished
    on these draws, or it has picked [undefined], which is not a string. *)
Definition initGame (lvl : nat) (draws : list nat) (s : State) : option State :=
  newSolutions ← select_solutions lvl draws;
  sols ← mapM id newSolutions;
  Some {| level := lvl; score := score s; hintCost := 5%Z;
          solutions := sols; guesses := [];
          currentGuess := replicate WORD_LENGTH "";
          activeTileIndex := 0; gameStatus := playing;
          solvedIndices := replicate (numWords lvl) false;
          revealedHints := ∅; hintedSolutionIndex := None;
          shakeRow := false; toast := None;
          validGuessesSet := validGuessesSet s;
          isDictionaryLoaded := isDictionaryLoaded s |}.

(** The cells as [useState] creates them. *)
Definition first_render : State :=
  {| level := 0; score := 0%Z; hintCost := 5%Z;
     solutions := []; guesses := [];
     currentGuess := replicate WORD_LENGTH "";
     activeTileIndex := 0; gameStatus := playing;
     solvedIndices := [];
     revealedHints := ∅; hintedSolutionIndex := None;
     shakeRow := false; toast := None;
     validGuessesSet := list_to_set (filter (fun w => playable w = true) VALID_GUESSES);
     isDictionaryLoaded := false |}.

(** The state once the effects of the first render have run: [initGame] and
    the score reset at level 0. *)
Definition mount (draws : list nat) : option State := initGame 0 draws first_render.

(** *** handleHint *)

(** [solvedIndices.findIndex(solved => !solved)]: the first unsolved board. *)
Definition first_unsolved (solvedIndices : list bool) : option nat :=
  JS.findIndex (fun solved _ => negb solved) solvedIndices.

(** [!revealedHints[index]]. *)
Definition not_revealed (revealedHints : gmap nat string) (index : nat) : bool :=
  match revealedHints !! index with
  | Some v => bool_decide (v = "")
  | None => true
  end.

Definition availableIndices (currentGuess : list string) (revealedHints : gmap nat string)
  : list nat :=
  (filter (fun ci : string * nat => ci.1 = "" ∧ not_revealed revealedHints ci.2 = true)
          (imap (fun index char => (char, index)) currentGuess)).*2.

(** The cursor loop of [handleHint]:
    [while (nextIndex < WORD_LENGTH - 1 && currentGuess[nextIndex] !== "") nextIndex++].
    [fuel] bounds the iterations; [WORD_LENGTH] of them are always enough
    (lemma [advance_exits]). *)
Fixpoint advance (fuel : nat) (currentGuess : list string) (nextIndex : nat) : nat :=
  match fuel with
  | 0 => nextIndex
  | S fuel' =>
      if decide (nextIndex < WORD_LENGTH - 1 ∧ currentGuess !! nextIndex ≠ Some "")
      then advance fuel' currentGuess (S nextIndex)
      else nextIndex
  end.

(** [handleHint], with [r] the draw of [Math.random].  [solvedIndices],
    [revealedHints], [currentGuess] and [activeTileIndex] are read from the
    render the handler closes over, that is from [s], also after a setter has
    been called.  [None]: the source indexes [undefined] (no solution at the
    target index) or would store [undefined] as a letter. *)
Definition handleHint (r : nat) (s : State) : option State :=
  if decide (gameStatus s ≠ playing) then Some s
  else if decide (score s < hintCost s)%Z
  then Some (feedback (shakeRow s) (ToastInsufficientPoints (hintCost s)) s)
  else
    match first_unsolved (solvedIndices s) with
    | None => Some s
    | Some currentUnsolvedIndex =>
        let retarget :=
          match hintedSolutionIndex s with
          | None => true
          | Some h => JS.truthy_at (solvedIndices s) h || bool_decide (h ≠ currentUnsolvedIndex)
          end in
        let activeHintIndex :=
          if retarget then currentUnsolvedIndex
          else default currentUnsolvedIndex (hintedSolutionIndex s) in
        let s1 := if retarget then setHintTarget (Some activeHintIndex) ∅ s else s in
        let available := availableIndices (currentGuess s) (revealedHints s) in
        if decide (length available = 0) then Some (feedback true ToastNoFreeSlot s1)
        else
          randomIndex ← available !! JS.random_index r (length available);
          targetSolution ← solutions s !! activeHintIndex;
          correctLetter ← JS.char_at targetSolution randomIndex;
          let newRevealed := <[randomIndex := correctLetter]> (revealedHints s) in
          let newGuess := JS.assign "" randomIndex correctLetter (currentGuess s) in
          let nextIndex :=
            if decide (randomIndex = activeTileIndex s)
            then advance WORD_LENGTH (currentGuess s) (activeTileIndex s)
            else activeTileIndex s in
          Some {| level := level s;
                  score := (score s - hintCost s)%Z;
                  hintCost := (hintCost s + 5)%Z;
                  solutions := solutions s; guesses := guesses s;
                  currentGuess := newGuess;
                  activeTileIndex := nextIndex;
                  gameStatus := gameStatus s; solvedIndices := solvedIndices s;
                  revealedHints := newRevealed;
                  hintedSolutionIndex := hintedSolutionIndex s1;
                  shakeRow := shakeRow s; toast := toast s;
                  validGuessesSet := validGuessesSet s;
                  isDictionaryLoaded := isDictionaryLoaded s |}
    end.

(** *** onKeyDown *)

(** The body of [solutions.forEach] in the ENTER branch; the state is
    [newSolvedIndices], [turnPoints] and the score. *)
Definition solve_step (joinedGuess : string) (attemptsTaken : nat)
    (acc : list bool * Z * Z) (sol : string) (i : nat) : list bool * Z * Z :=
  let '(newSolvedIndices, turnPoints, sc) := acc in
  if negb (JS.truthy_at newSolvedIndices i) && bool_decide (joinedGuess = sol) then
    let pointsEarned := Z.max 10 (100 - Z.of_nat attemptsTaken * 15) in
    (JS.assign false i true newSolvedIndices, (turnPoints + pointsEarned)%Z,
     (sc + pointsEarned)%Z)
  else acc.

(** [nextGuess] of the hint persistence branch: the entries of
    [revealedHints] written into an empty row.  The keys are distinct, so the
    order of the entries does not show in the result. *)
Definition prefill (revealedHints : gmap nat string) : list string :=
  foldl (fun nextGuess '(idx, char) => JS.assign "" idx char nextGuess)
        (replicate WORD_LENGTH "") (map_to_list revealedHints).

(** The guards of the ENTER branch. *)
Definition incomplete (currentGuess : list string) : Prop :=
  String.length (String.concat "" currentGuess) ≠ WORD_LENGTH ∨ "" ∈ currentGuess.

#[global] Instance incomplete_dec g : Decision (incomplete g).
Proof. unfold incomplete. apply _. Defined.

(** The ENTER branch after [solutions.forEach], whose outcome is
    [newSolvedIndices], [turnPoints] and the score. *)
Definition settle (joinedGuess : string) (s : State) (outcome : list bool * Z * Z) : State :=
  let '(newSolvedIndices, turnPoints, sc) := outcome in
  let newGuesses := guesses s ++ [joinedGuess] in
  let wasHintedWordSolved :=
    match hintedSolutionIndex s with
    | Some h => JS.truthy_at newSolvedIndices h
    | None => false
    end in
  let allSolved := forallb id newSolvedIndices in
  {| level := level s; score := sc; hintCost := hintCost s;
     solutions := solutions s; guesses := newGuesses;
     currentGuess :=
       if wasHintedWordSolved then replicate WORD_LENGTH ""
       else prefill (revealedHints s);
     activeTileIndex := 0;
     gameStatus :=
       if allSolved then won
       else if decide (maxChallenges (level s) ≤ length newGuesses) then lost
       else gameStatus s;
     solvedIndices := newSolvedIndices;
     revealedHints := if wasHintedWordSolved then ∅ else revealedHints s;
     hintedSolutionIndex := if wasHintedWordSolved then None else hintedSolutionIndex s;
     shakeRow := shakeRow s;
     toast :=
       if allSolved
       then Some (ToastLevelComplete
                    (if decide (0 < turnPoints)%Z then Some turnPoints else None))
       else if decide (maxChallenges (level s) ≤ length newGuesses) then Some ToastGameOver
       else if decide (0 < turnPoints)%Z then Some (ToastPoints turnPoints)
       else toast s;
     validGuessesSet := validGuessesSet s;
     isDictionaryLoaded := isDictionaryLoaded s |}.

(** The ENTER branch once both guards have passed. *)
Definition accept (joinedGuess : string) (s : State) : State :=
  settle joinedGuess s
    (JS.forEach (solve_step joinedGuess (length (guesses s))) (solutions s)
                (solvedIndices s, 0%Z, score s)).

Definition submit (s : State) : State :=
  let joinedGuess := String.concat "" (currentGuess s) in
  if decide (incomplete (currentGuess s)) then feedback true ToastIncompleteWord s
  else if decide (joinedGuess ∉ validGuessesSet s) then feedback true ToastUnknownWord s
  else accept joinedGuess s.

(** [/^[A-Z]$/.test(key) && key.length === 1]. *)
Definition is_letter (key : string) : bool :=
  match key with
  | String c EmptyString => (65 <=? nat_of_ascii c) && (nat_of_ascii c <=? 90)
  | _ => false
  end.

(** [onKeyDown(key)].  In [WORD_LENGTH - 1] and [activeTileIndex - 1] the
    subtraction is that of [nat]: [Math.max(0, i - 1)] is [i - 1], and
    [WORD_LENGTH - 1] is exact for a positive [WORD_LENGTH]. *)
Definition onKeyDown (key : string) (s : State) : State :=
  if decide (gameStatus s ≠ playing) then s
  else if decide (key = "BACKSPACE") then
    if decide (currentGuess s !! activeTileIndex s ≠ Some "")
    then setCurrentGuess (JS.assign "" (activeTileIndex s) "" (currentGuess s)) s
    else
      let prevIndex := activeTileIndex s - 1 in
      setActiveTileIndex prevIndex
        (setCurrentGuess (JS.assign "" prevIndex "" (currentGuess s)) s)
  else if decide (key = "ARROWLEFT") then setActiveTileIndex (activeTileIndex s - 1) s
  else if decide (key = "ARROWRIGHT")
  then setActiveTileIndex (Nat.min (WORD_LENGTH - 1) (activeTileIndex s + 1)) s
  else if decide (key = "ENTER") then submit s
  else if is_letter key then
    let s1 := setCurrentGuess (JS.assign "" (activeTileIndex s) key (currentGuess s)) s in
    if decide (activeTileIndex s < WORD_LENGTH - 1)
    then setActiveTileIndex (activeTileIndex s + 1) s1
    else s1
  else s.

(** *** The events of the component *)

Inductive Event :=
| KeyDown (key : string)
| HintRequest (r : nat)
| TileClick (i : nat)
| NextLevel (draws : list nat)
| TryAgain (draws : list nat)
| RestartFromZero (draws : list nat)
| DictionaryLoaded (processedWords : list string)
| ToastTimeout
| ShakeTimeout.

(** [/^[A-Z]+$/.test(w)]. *)
Definition all_capitals (w : string) : bool :=
  match JS.split w with
  | [] => false
  | cs => forallb (fun c => (65 <=? nat_of_ascii c) && (nat_of_ascii c <=? 90)) cs
  end.

(** The input row of some board is on screen: the board is not solved and
    there is a row left. *)
Definition input_row_shown (s : State) : Prop :=
  length (guesses s) < maxChallenges (level s) ∧
  ∃ solIndex, solIndex < length (solutions s) ∧
              JS.truthy_at (solvedIndices s) solIndex = false.

#[local] Instance input_row_shown_dec s : Decision (input_row_shown s).
Proof.
  unfold input_row_shown. apply and_dec; [apply _ |].
  destruct (decide (Exists (fun solIndex => JS.truthy_at (solvedIndices s) solIndex = false)
                           (seq 0 (length (solutions s))))) as [H | H].
  - left. apply Exists_exists in H as (i & Hi & Ht). exists i. split; [| done].
    apply elem_of_seq in Hi. lia.
  - right. intros (i & Hi & Ht). apply H, Exists_exists. exists i. split; [| done].
    apply elem_of_seq. lia.
Defined.

(** One event, handled in the state of the current render.  [None]: the
    control that raises the event is not on screen, or the handler does not
    come back with a state ([initGame], [handleHint]). *)
Definition step (e : Event) (s : State) : option State :=
  match e with
  | KeyDown key => Some (onKeyDown key s)
  | HintRequest r =>
      if decide (gameStatus s = playing) then handleHint r s else None
  | TileClick i =>
      if decide (i < WORD_LENGTH ∧ input_row_shown s)
      then Some (setActiveTileIndex i s) else None
  | NextLevel draws =>
      if decide (gameStatus s = won) then initGame (level s + 1) draws s else None
  | TryAgain draws =>
      if decide (gameStatus s = lost) then initGame (level s) draws s else None
  | RestartFromZero draws =>
      if decide (gameStatus s = lost) then
        if decide (level s = 0) then Some s
        else
          s' ← initGame 0 draws s;
          Some {| level := level s'; score := 0%Z; hintCost := hintCost s';
                  solutions := solutions s'; guesses := guesses s';
                  currentGuess := currentGuess s';
                  activeTileIndex := activeTileIndex s';
                  gameStatus := gameStatus s'; solvedIndices := solvedIndices s';
                  revealedHints := revealedHints s';
                  hintedSolutionIndex := hintedSolutionIndex s';
                  shakeRow := shakeRow s'; toast := toast s';
                  validGuessesSet := validGuessesSet s';
                  isDictionaryLoaded := isDictionaryLoaded s' |}
      else None
  | DictionaryLoaded processedWords =>
      let kept :=
        filter (fun w => String.length w = WORD_LENGTH ∧ all_capitals w = true)
               processedWords in
      Some {| level := level s; score := score s; hintCost := hintCost s;
              solutions := solutions s; guesses := guesses s;
              currentGuess := currentGuess s;
              activeTileIndex := activeTileIndex s;
              gameStatus := gameStatus s; solvedIndices := solvedIndices s;
              revealedHints := revealedHints s;
              hintedSolutionIndex := hintedSolutionIndex s;
              shakeRow := shakeRow s; toast := toast s;
              validGuessesSet := validGuessesSet s ∪ list_to_set kept;
              isDictionaryLoaded := true |}
  | ToastTimeout =>
      Some {| level := level s; score := score s; hintCost := hintCost s;
              solutions := solutions s; guesses := guesses s;
              currentGuess := currentGuess s;
              activeTileIndex := activeTileIndex s;
              gameStatus := gameStatus s; solvedIndices := solvedIndices s;
              revealedHints := revealedHints s;
              hintedSolutionIndex := hintedSolutionIndex s;
              shakeRow := shakeRow s; toast := None;
              validGuessesSet := validGuessesSet s;
              isDictionaryLoaded := isDictionaryLoaded s |}
  | ShakeTimeout =>
      Some {| level := level s; score := score s; hintCost := hintCost s;
              solutions := solutions s; guesses := guesses s;
              currentGuess := currentGuess s;
              activeTileIndex := activeTileIndex s;
              gameStatus := gameStatus s; solvedIndices := solvedIndices s;
              revealedHints := revealedHints s;
              hintedSolutionIndex := hintedSolutionIndex s;
              shakeRow := false; toast := toast s;
              validGuessesSet := validGuessesSet s;
              isDictionaryLoaded := isDictionaryLoaded s |}
  end.

(** A sequence of events, one render after the other. *)
Definition run (es : list Event) (s : State) : option State :=
  foldl (fun os e => os ≫= step e) (Some s) es.

(** The component mounted on [draws] and then driven by [es]. *)
Definition play (draws : list nat) (es : list Event) : option State :=
  mount draws ≫= run es.

(** The states of the component: the mounted state and what the events make
    of it.  The cells of the first render are not among them: its effects run
    before any event is handled. *)
Inductive reachable : State -> Prop :=
| reachable_mount draws s : mount draws = Some s -> reachable s
| reachable_step e s s' : reachable s -> step e s = Some s' -> reachable s'.

(** *** Well-formed states *)

Definition all_solved (s : State) : Prop := Forall (fun b => b = true) (solvedIndices s).

(** What every state of the component satisfies (lemma [reachable_wf]).
    On such a state every array write of the handlers is in range, every
    solution has a letter for every slot, and the hint target, when set, is
    the first unsolved board. *)
Record wf (s : State) : Prop := mkWf {
  wf_word_length : 0 < WORD_LENGTH;
  wf_solved_length : length (solvedIndices s) = length (solutions s);
  wf_boards : length (solutions s) = numWords (level s);
  wf_solution_length : Forall (fun w => String.length w = WORD_LENGTH) (solutions s);
  wf_distinct : NoDup (solutions s);
  wf_buffer_length : length (currentGuess s) = WORD_LENGTH;
  wf_cursor : activeTileIndex s < WORD_LENGTH;
  wf_hint_slots : map_Forall (fun i _ => i < WORD_LENGTH) (revealedHints s);
  wf_hint_none : hintedSolutionIndex s = None -> revealedHints s = ∅;
  wf_hint_target : forall h, hintedSolutionIndex s = Some h ->
                             first_unsolved (solvedIndices s) = Some h;
  wf_won : gameStatus s = won <-> all_solved s;
  wf_lost : gameStatus s = lost -> maxChallenges (level s) ≤ length (guesses s)
}.

(** *** Vocabulary of the statements *)

(** ENTER is accepted in [s] with the word [w]: the game is on, the row is
    complete and its word is in the validation vocabulary. *)
Definition accepted (s : State) (w : string) : Prop :=
  gameStatus s = playing ∧ ¬ incomplete (currentGuess s) ∧
  w = String.concat "" (currentGuess s) ∧ w ∈ validGuessesSet s.

(** The number of boards that are not solved yet and whose solution is [w]. *)
Definition solving_boards (w : string) (solvedIndices : list bool) (solutions : list string)
  : nat :=
  length (filter (fun p : bool * string => p.1 = false ∧ p.2 = w) (zip solvedIndices solutions)).

(** The mask after the word [w]: a board is solved if it was, or if [w] is
    its solution. *)
Definition solved_after (w : string) (solvedIndices : list bool) (solutions : list string)
  : list bool :=
  zip_with (fun (b : bool) (sol : string) => b || bool_decide (w = sol)) solvedIndices solutions.

(** A hint request the handler turns down for the score or for want of a
    slot. *)
Definition hint_refused (s : State) : Prop :=
  (score s < hintCost s)%Z ∨ availableIndices (currentGuess s) (revealedHints s) = [].

(** The cells a turned down action must not touch, the hint cells apart. *)
Definition same_board (s s' : State) : Prop :=
  level s' = level s ∧ score s' = score s ∧ hintCost s' = hintCost s ∧
  solutions s' = solutions s ∧ guesses s' = guesses s ∧
  currentGuess s' = currentGuess s ∧ activeTileIndex s' = activeTileIndex s ∧
  gameStatus s' = gameStatus s ∧ solvedIndices s' = solvedIndices s ∧
  validGuessesSet s' = validGuessesSet s ∧
  isDictionaryLoaded s' = isDictionaryLoaded s.

End Game.

(** * Vocabulary of the proofs *)

(** ** Invariants of the scorer's passes *)

Section ScorerInvariants.

Variable WORD_LENGTH : nat.
Variables g sol : list ascii.

(** The state of pass 1 before index [k]. *)
Definition green_inv (k : nat) (st : scorer_state) : Prop :=
  length st.1 = WORD_LENGTH ∧ length st.2 = length sol ∧
  (forall i, i < WORD_LENGTH ->
     st.1 !! i = Some (Some (if bool_decide (i < k) && Reference.exact g sol i then correct else absent))) ∧
  (forall j, j < length sol -> st.2 !! j = Some (bool_decide (j < k) && Reference.exact g sol j)).

(** The positions consumed by pass 1. *)
Definition consumed0 : gset nat :=
  list_to_set (filter (fun i => Reference.exact g sol i = true) (seq 0 (length g))).

(** The state of pass 2 before index [k]: [out] are the statuses the
    reference has produced so far and [c] the positions it has consumed. *)
Definition yellow_inv (k : nat) (st : scorer_state) : Prop :=
  length st.1 = WORD_LENGTH ∧ length st.2 = length sol ∧
  ∃ (out : list CharStatus) (c : gset nat),
    length out = k ∧
    Reference.presence g sol (seq 0 WORD_LENGTH) consumed0
      = out ++ Reference.presence g sol (seq k (WORD_LENGTH - k)) c ∧
    (forall j, j < length sol -> JS.truthy_at st.2 j = true <-> j ∈ c) ∧
    (forall i, i < k -> st.1 !! i = Some (out !! i)) ∧
    (forall i, k ≤ i < WORD_LENGTH ->
       st.1 !! i = Some (Some (if Reference.exact g sol i then correct else absent))).

End ScorerInvariants.

(** ** Invariants of the keyboard aggregation *)

(** [keyStatuses] holds, for every letter, the best of the statuses [E]
    has for it, and nothing for a letter [E] has no status for. *)
Definition best_of (E : ascii -> CharStatus -> Prop) (keyStatuses : gmap ascii CharStatus) : Prop :=
  forall c,
    match keyStatuses !! c with
    | Some st => E c st ∧ forall st', E c st' -> priority st' ≤ priority st
    | None => forall st', ¬ E c st'
    end.

Section KeyboardInvariants.

Variable WORD_LENGTH : nat.
Variables (guesses solutions : list string) (solvedIndices : list bool).


(** The statuses of the first [k] positions of [guess] against [sol]. *)
Definition seen_positions (guess sol : string) (k : nat) (c : ascii) (st : CharStatus) : Prop :=
  ∃ i, i < k ∧ JS.split guess !! i = Some c ∧
       JS.sparse_get (getGuessStatuses WORD_LENGTH guess sol) i = Some st.

(** The statuses of [guess] against the unsolved boards below [n]. *)
Definition seen_boards (guess : string) (n : nat) (c : ascii) (st : CharStatus) : Prop :=
  ∃ sol solIndex, solIndex < n ∧ solutions !! solIndex = Some sol ∧
    JS.truthy_at solvedIndices solIndex = false ∧
    seen_positions guess sol (length (JS.split guess)) c st.

(** The statuses of the first [m] guesses. *)
Definition seen_guesses (m : nat) (c : ascii) (st : CharStatus) : Prop :=
  ∃ guess gi, gi < m ∧ guesses !! gi = Some guess ∧
    seen_boards guess (length solutions) c st.

End KeyboardInvariants.

(** The priority of a keyboard entry; a letter without entry has none. *)
Definition entry_priority (o : option CharStatus) : nat := from_option priority 0 o.

(** ** Hints *)

(** The state after a hint that reveals [letter] at [index] for the board
    [cur]: the cursor is the one of [s]. *)
Definition revealed_state (s : State) (cur index : nat) (letter : string) : State :=
  {| level := level s;
     score := (score s - hintCost s)%Z;
     hintCost := (hintCost s + 5)%Z;
     solutions := solutions s; guesses := guesses s;
     currentGuess := <[index := letter]> (currentGuess s);
     activeTileIndex := activeTileIndex s;
     gameStatus := gameStatus s; solvedIndices := solvedIndices s;
     revealedHints := <[index := letter]> (revealedHints s);
     hintedSolutionIndex := Some cur;
     shakeRow := shakeRow s; toast := toast s;
     validGuessesSet := validGuessesSet s;
     isDictionaryLoaded := isDictionaryLoaded s |}.

(** ** A game played on a small vocabulary *)

Definition demo_words : list string := ["TERMO"; "CASAS"; "AB CD"; "LONGER"].
Definition demo_valid : list string := ["TERMO"; "CASAS"; "PORTA"; "NO GO"].

Definition type_word (w : string) : list Event :=
  (fun c => KeyDown (String c EmptyString)) <$> JS.split w.

Definition demo (es : list Event) : State :=
  default (first_render 5 demo_valid) (play 5 demo_words demo_valid [0] es).

(** Level 0 with TERMO typed in. *)
Definition demo_typed : State := demo (type_word "TERMO").

(** Level 1, boards TERMO and CASAS, after level 0 was won at the first
    attempt. *)
Definition to_level1 : list Event :=
  type_word "TERMO" ++ [KeyDown "ENTER"; NextLevel [0; 0; 1]].
Definition demo_level1 : State := demo to_level1.

(** Level 1 with a full row. *)
Definition demo_full : State := demo (to_level1 ++ type_word "CASAS").

(** Level 1 after a hint on slot 0, with PORTA typed over it. *)
Definition demo_hinted : State := demo (to_level1 ++ [HintRequest 0] ++ type_word "PORTA").

(** Level 1 with TERMO guessed and typed in again. *)
Definition demo_again : State :=
  demo (to_level1 ++ type_word "TERMO" ++ [KeyDown "ENTER"] ++ type_word "TERMO").


(** ** Counting credits of the scorer *)

(** The guess positions that hold [c] and are marked correct or present. *)
Definition credited (c : ascii) (guess : list ascii) (statuses : list (option CharStatus))
  : nat :=
  length (filter (fun p : ascii * option CharStatus =>
                    p.1 = c ∧ (p.2 = Some correct ∨ p.2 = Some present))
                 (zip guess statuses)).

(** The solution positions that hold [c] and are taken. *)
Definition taken_count (c : ascii) (taken : list bool) (solution : list ascii) : nat :=
  length (filter (fun p : bool * ascii => p.1 = true ∧ p.2 = c) (zip taken solution)).

(** As many credits as taken positions, for the letter [c]. *)
Definition balanced (c : ascii) (g sol : list ascii) (st : scorer_state) : Prop :=
  credited c g st.1 = taken_count c st.2 sol.

(** ** Typing *)

(** The letter keys [cs] pressed one after the other. *)
Definition type_letters (WORD_LENGTH : nat) (cs : list ascii) (s : State) : State :=
  foldl (fun s c => onKeyDown WORD_LENGTH (String c EmptyString) s) s cs.

(** [/^[A-Z]$/] on one character. *)
Definition capital (c : ascii) : bool :=
  (65 <=? nat_of_ascii c) && (nat_of_ascii c <=? 90).

(** The cells of [s'] are those of [s], the input row and its cursor apart. *)
Definition same_but_row (s s' : State) : Prop :=
  level s' = level s ∧ score s' = score s ∧ hintCost s' = hintCost s ∧
  solutions s' = solutions s ∧ guesses s' = guesses s ∧
  gameStatus s' = gameStatus s ∧ solvedIndices s' = solvedIndices s ∧
  revealedHints s' = revealedHints s ∧
  hintedSolutionIndex s' = hintedSolutionIndex s ∧
  shakeRow s' = shakeRow s ∧ toast s' = toast s ∧
  validGuessesSet s' = validGuessesSet s ∧
  isDictionaryLoaded s' = isDictionaryLoaded s.

(** The cells of [s'] are those of [s], the validation set and the flag of
    the dictionary apart. *)
Definition same_but_dictionary (s s' : State) : Prop :=
  level s' = level s ∧ score s' = score s ∧ hintCost s' = hintCost s ∧
  solutions s' = solutions s ∧ guesses s' = guesses s ∧
  currentGuess s' = currentGuess s ∧ activeTileIndex s' = activeTileIndex s ∧
  gameStatus s' = gameStatus s ∧ solvedIndices s' = solvedIndices s ∧
  revealedHints s' = revealedHints s ∧
  hintedSolutionIndex s' = hintedSolutionIndex s ∧
  shakeRow s' = shakeRow s ∧ toast s' = toast s.

(** ** What the component keeps besides well-formedness *)

Record sound (WORD_LENGTH : nat) (WORDS : list string) (s : State) : Prop := mkSound {
  snd_solutions : Forall (fun w => w ∈ WORDS ∧ JS.includes_space w = false) (solutions s);
  snd_budget : length (guesses s) ≤ maxChallenges (level s);
  snd_budget_playing :
    gameStatus s = playing -> length (guesses s) < maxChallenges (level s);
  snd_valid_length : forall w, w ∈ validGuessesSet s -> String.length w = WORD_LENGTH;
  snd_guesses : Forall (fun w => w ∈ validGuessesSet s) (guesses s);
  snd_score : (0 ≤ score s)%Z;
  snd_hint_cost : ∃ n : nat, hintCost s = (5 + 5 * Z.of_nat n)%Z;
  snd_hints : forall i v, revealedHints s !! i = Some v ->
    ∃ h target, hintedSolutionIndex s = Some h ∧ solutions s !! h = Some target ∧
                JS.char_at target i = Some v
}.

(** * Properties *)

(** ** The scorer and the keyboard on examples *)

Example getGuessStatuses_speed_erase :
  getGuessStatuses 5 "SPEED" "ERASE"
  = [Some present; Some absent; Some present; Some present; Some absent].
Proof. reflexivity. Qed.

Example reference_speed_erase :
  Reference.score "SPEED" "ERASE" = [present; absent; present; present; absent].
Proof. vm_compute. reflexivity. Qed.

Example getGuessStatuses_long_guess :
  getGuessStatuses 2 "ABCD" "ABXD" = [Some correct; Some correct; None; Some correct].
Proof. reflexivity. Qed.

Example getKeyStatuses_skips_solved_board :
  map_to_list (getKeyStatuses 5 ["SPEED"; "ERASE"] ["ERASE"; "TERMO"] [true; false])
  = [("S"%char, absent); ("E"%char, present); ("A"%char, absent);
     ("R"%char, present); ("D"%char, absent); ("P"%char, absent)].
Proof. vm_compute. reflexivity. Qed.

(** ** JavaScript arrays *)

Lemma split_length (s : string) : length (JS.split s) = String.length s.
Proof. induction s as [| c s IH]; simpl; [done | by rewrite <- IH]. Qed.

(** An invariant of [forEach]: [P i] holds before the callback runs at index
    [i]. *)
Lemma forEach_from_inv {A St : Type} (P : nat -> St -> Prop) (f : St -> A -> nat -> St)
    (pre rest : list A) (s : St) :
  P (length pre) s ->
  (forall i x s, (pre ++ rest) !! i = Some x -> length pre ≤ i -> P i s -> P (S i) (f s x i)) ->
  P (length (pre ++ rest)) (JS.forEach_from f (length pre) rest s).
Proof.
  revert pre s. induction rest as [| x rest IH]; intros pre s H0 Hstep; simpl.
  - by rewrite app_nil_r.
  - specialize (IH (pre ++ [x]) (f s x (length pre))).
    rewrite length_app, <- (assoc_L (++)) in IH. simpl in IH.
    rewrite Nat.add_1_r in IH. rewrite length_app in *. simpl in *.
    apply IH.
    + apply Hstep; [| lia | done]. by rewrite list_lookup_middle.
    + intros i y s' Hi Hle. apply Hstep; [done | lia].
Qed.

Lemma forEach_inv {A St : Type} (P : nat -> St -> Prop) (f : St -> A -> nat -> St)
    (l : list A) (s : St) :
  P 0 s ->
  (forall i x s, l !! i = Some x -> P i s -> P (S i) (f s x i)) ->
  P (length l) (JS.forEach f l s).
Proof.
  intros H0 Hstep. apply (forEach_from_inv P f [] l s H0). intros i x s' Hi _. by apply Hstep.
Qed.

(** [findIndex] returns the lowest index that satisfies the callback. *)
Lemma findIndex_from_head {A : Type} (p : A -> nat -> bool) (Q : nat -> Prop)
    `{!forall j, Decision (Q j)} (pre rest : list A) :
  (forall j x, (pre ++ rest) !! j = Some x -> p x j = true <-> Q j) ->
  JS.findIndex_from p (length pre) rest = head (filter Q (seq (length pre) (length rest))).
Proof.
  revert pre. induction rest as [| x rest IH]; intros pre Hp; simpl; [done |].
  rewrite filter_cons.
  assert (Hx : (pre ++ x :: rest) !! length pre = Some x) by by rewrite list_lookup_middle.
  specialize (Hp _ _ Hx) as Hpx.
  destruct (p x (length pre)) eqn:E.
  - rewrite decide_True by by apply Hpx. done.
  - rewrite decide_False by (intros HQ; apply Hpx in HQ; congruence).
    specialize (IH (pre ++ [x])). rewrite length_app, <- (assoc_L (++)) in IH. simpl in IH.
    rewrite Nat.add_1_r in IH. by apply IH.
Qed.

Lemma findIndex_head {A : Type} (p : A -> nat -> bool) (Q : nat -> Prop)
    `{!forall j, Decision (Q j)} (l : list A) :
  (forall j x, l !! j = Some x -> p x j = true <-> Q j) ->
  JS.findIndex p l = head (filter Q (seq 0 (length l))).
Proof. intros Hp. by apply (findIndex_from_head p Q [] l). Qed.

Lemma sparse_set_in_range {A : Type} (i : nat) (x : A) (l : list (option A)) :
  i < length l -> JS.sparse_set i x l = <[i := Some x]> l.
Proof. intros Hi. unfold JS.sparse_set. by rewrite decide_True. Qed.

Lemma assign_in_range {A : Type} (d : A) (i : nat) (x : A) (l : list A) :
  i < length l -> JS.assign d i x l = <[i := x]> l.
Proof. intros Hi. unfold JS.assign. by rewrite decide_True. Qed.

Lemma assign_length_in_range {A : Type} (d : A) (i : nat) (x : A) (l : list A) :
  i < length l -> length (JS.assign d i x l) = length l.
Proof. intros Hi. rewrite assign_in_range by done. apply length_insert. Qed.

(** ** The scorer against its reference *)

Section ScorerProofs.

Variable WORD_LENGTH : nat.
Variables g sol : list ascii.
Hypothesis guess_length : length g = WORD_LENGTH.

Local Abbreviation exact := (Reference.exact g sol).

Lemma exact_spec (i : nat) (x : ascii) :
  g !! i = Some x -> exact i = true <-> sol !! i = Some x.
Proof.
  intros Hg. unfold Reference.exact. rewrite Hg.
  destruct (sol !! i) as [y |]; [| done].
  rewrite bool_decide_eq_true. split; congruence.
Qed.

Lemma exact_lt (i : nat) : exact i = true -> i < WORD_LENGTH ∧ i < length sol.
Proof.
  unfold Reference.exact. destruct (g !! i) eqn:Hg; [| done].
  destruct (sol !! i) eqn:Hs; [| done]. intros _.
  apply lookup_lt_Some in Hg, Hs. lia.
Qed.

Lemma green_inv_init :
  (green_inv WORD_LENGTH g sol) 0 (replicate WORD_LENGTH (Some absent), map (fun _ => false) sol).
Proof.
  repeat split; simpl.
  - apply length_replicate.
  - apply length_map.
  - intros i Hi. rewrite lookup_replicate_2 by done. done.
  - intros j Hj. destruct (lookup_lt_is_Some_2 sol j Hj) as [y Hy].
    rewrite list_lookup_fmap, Hy. done.
Qed.

Lemma green_inv_step (i : nat) (x : ascii) (st : scorer_state) :
  g !! i = Some x -> (green_inv WORD_LENGTH g sol) i st -> (green_inv WORD_LENGTH g sol) (S i) (green_step sol st x i).
Proof.
  intros Hg (Hl1 & Hl2 & Hst & Htk). destruct st as [statuses taken]. simpl in *.
  pose proof (lookup_lt_Some _ _ _ Hg) as Hi. rewrite guess_length in Hi.
  pose proof (exact_spec i x Hg) as Hex.
  unfold green_step. destruct (decide (sol !! i = Some x)) as [Hs | Hs].
  - pose proof (lookup_lt_Some _ _ _ Hs) as Hi'.
    rewrite sparse_set_in_range by lia.
    repeat split; simpl; rewrite ?length_insert; try done.
    + intros i' Hi'l. destruct (decide (i' = i)) as [-> | Hne].
      * rewrite list_lookup_insert_eq by lia.
        rewrite bool_decide_eq_true_2 by lia. by rewrite (proj2 Hex Hs).
      * rewrite list_lookup_insert_ne by done. rewrite Hst by done.
        by rewrite (bool_decide_ext (i' < S i) (i' < i)) by lia.
    + intros j Hj. destruct (decide (j = i)) as [-> | Hne].
      * rewrite list_lookup_insert_eq by lia.
        rewrite bool_decide_eq_true_2 by lia. by rewrite (proj2 Hex Hs).
      * rewrite list_lookup_insert_ne by done. rewrite Htk by done.
        by rewrite (bool_decide_ext (j < S i) (j < i)) by lia.
  - assert (Hf : exact i = false).
    { apply not_true_is_false. intros E. by apply Hex in E. }
    repeat split; simpl; try done.
    + intros i' Hi'l. rewrite Hst by done. destruct (decide (i' = i)) as [-> | Hne].
      * rewrite Hf. by rewrite !andb_false_r.
      * by rewrite (bool_decide_ext (i' < S i) (i' < i)) by lia.
    + intros j Hj. rewrite Htk by done. destruct (decide (j = i)) as [-> | Hne].
      * rewrite Hf. by rewrite !andb_false_r.
      * by rewrite (bool_decide_ext (j < S i) (j < i)) by lia.
Qed.

Lemma elem_of_consumed0 (j : nat) : j ∈ (consumed0 g sol) <-> exact j = true.
Proof.
  unfold consumed0. rewrite elem_of_list_to_set, list_elem_of_filter, elem_of_seq.
  split; [tauto |]. intros H. split; [done |]. apply exact_lt in H. lia.
Qed.

Lemma yellow_inv_init (st : scorer_state) : (green_inv WORD_LENGTH g sol) WORD_LENGTH st -> (yellow_inv WORD_LENGTH g sol) 0 st.
Proof.
  intros (Hl1 & Hl2 & Hst & Htk). split; [done |]. split; [done |].
  exists [], (consumed0 g sol). rewrite Nat.sub_0_r. split_and!; [done | done | | | ].
  - intros j Hj. unfold JS.truthy_at. rewrite Htk by done. rewrite elem_of_consumed0.
    split.
    + intros H. by apply andb_true_iff in H as [_ H].
    + intros H. apply andb_true_iff. split; [| done].
      apply bool_decide_eq_true. by apply exact_lt in H as [H _].
  - intros i Hi. lia.
  - intros i [_ Hi]. rewrite Hst by done. by rewrite bool_decide_eq_true_2.
Qed.

Lemma lowest_unconsumed_findIndex (taken : list bool) (c : gset nat) (x : ascii) :
  length taken = length sol ->
  (forall j, j < length sol -> JS.truthy_at taken j = true <-> j ∈ c) ->
  JS.findIndex
    (fun sLetter index => bool_decide (sLetter = x) && negb (JS.truthy_at taken index)) sol
  = Reference.lowest_unconsumed sol c x.
Proof.
  intros Hl Htk. unfold Reference.lowest_unconsumed. apply findIndex_head.
  intros j y Hy. pose proof (lookup_lt_Some _ _ _ Hy) as Hj.
  rewrite andb_true_iff, bool_decide_eq_true, negb_true_iff, Hy.
  specialize (Htk j Hj). split.
  - intros [-> Hn]. split; [done |]. intros Hc. apply Htk in Hc. congruence.
  - intros [[= ->] Hn]. split; [done |].
    apply not_true_is_false. intros E. by apply Htk in E.
Qed.

Lemma lowest_unconsumed_lt (c : gset nat) (x : ascii) (j : nat) :
  Reference.lowest_unconsumed sol c x = Some j -> j < length sol.
Proof.
  unfold Reference.lowest_unconsumed. intros H. apply head_Some_elem_of in H.
  apply list_elem_of_filter in H as [_ H]. apply elem_of_seq in H. lia.
Qed.

Lemma truthy_at_insert (taken : list bool) (c : gset nat) (j : nat) :
  j < length taken ->
  (forall j', j' < length taken -> JS.truthy_at taken j' = true <-> j' ∈ c) ->
  forall j', j' < length taken ->
    JS.truthy_at (<[j := true]> taken) j' = true <-> j' ∈ ({[ j ]} ∪ c : gset nat).
Proof.
  intros Hj Htk j' Hj'. unfold JS.truthy_at.
  destruct (decide (j' = j)) as [-> | Hne].
  - rewrite list_lookup_insert_eq by lia. split; [intros _ | done].
    apply elem_of_union_l, elem_of_singleton. done.
  - rewrite list_lookup_insert_ne by done. specialize (Htk j' Hj').
    unfold JS.truthy_at in Htk. rewrite Htk, elem_of_union, elem_of_singleton. tauto.
Qed.

(** The statuses once position [i] is settled with [v]. *)
Lemma settled_lookup (statuses : list (option CharStatus)) (out : list CharStatus)
    (v : CharStatus) (i : nat) :
  length out = i ->
  statuses !! i = Some (Some v) ->
  (forall i', i' < i -> statuses !! i' = Some (out !! i')) ->
  forall i', i' < S i -> statuses !! i' = Some ((out ++ [v]) !! i').
Proof.
  intros Hout Hi Hdone i' Hi'. destruct (decide (i' = i)) as [-> | Hne].
  - rewrite Hi. f_equal. rewrite lookup_app_r by lia.
    by replace (i - length out) with 0 by lia.
  - rewrite Hdone by lia. f_equal. by rewrite lookup_app_l by lia.
Qed.

Lemma yellow_inv_step (i : nat) (x : ascii) (st : scorer_state) :
  g !! i = Some x -> (yellow_inv WORD_LENGTH g sol) i st -> (yellow_inv WORD_LENGTH g sol) (S i) (yellow_step sol st x i).
Proof.
  intros Hg (Hl1 & Hl2 & out & c & Hout & Href & Htk & Hdone & Htodo).
  destruct st as [statuses taken]. simpl in *.
  pose proof (lookup_lt_Some _ _ _ Hg) as Hi. rewrite guess_length in Hi.
  assert (Hseq : seq i (WORD_LENGTH - i) = i :: seq (S i) (WORD_LENGTH - S i)).
  { replace (WORD_LENGTH - i) with (S (WORD_LENGTH - S i)) by lia. done. }
  rewrite Hseq in Href. simpl in Href.
  pose proof (Htodo i ltac:(lia)) as Hsi.
  unfold yellow_step, JS.sparse_get. rewrite Hsi. simpl.
  destruct (exact i) eqn:Hex.
  - rewrite decide_True by done. split; [done |]. split; [done |].
    exists (out ++ [correct]), c. rewrite length_app, <- (assoc_L (++)). simpl.
    split_and!; [lia | done | done | | ].
    + by apply settled_lookup.
    + intros i' Hi'. apply Htodo. lia.
  - rewrite decide_False by done.
    rewrite (lowest_unconsumed_findIndex taken c x Hl2 Htk).
    rewrite Hg in Href. simpl in Href.
    destruct (Reference.lowest_unconsumed sol c x) as [j |] eqn:Hlow.
    + pose proof (lowest_unconsumed_lt c x j Hlow) as Hj.
      rewrite sparse_set_in_range by lia.
      split; [by simpl; rewrite length_insert |].
      split; [by simpl; rewrite length_insert |]. simpl.
      exists (out ++ [present]), ({[ j ]} ∪ c).
      rewrite length_app, <- (assoc_L (++)). simpl.
      split_and!; [lia | done | | | ].
      * rewrite <- Hl2 in *. by apply truthy_at_insert.
      * apply settled_lookup; [done | by rewrite list_lookup_insert_eq by lia |].
        intros i' Hi'. rewrite list_lookup_insert_ne by lia. by apply Hdone.
      * intros i' Hi'. rewrite list_lookup_insert_ne by lia. apply Htodo. lia.
    + split; [done |]. split; [done |].
      exists (out ++ [absent]), c. rewrite length_app, <- (assoc_L (++)). simpl.
      split_and!; [lia | done | done | | ].
      * by apply settled_lookup.
      * intros i' Hi'. apply Htodo. lia.
Qed.

Lemma scorer_passes_reference :
  (JS.forEach (yellow_step sol) g
     (JS.forEach (green_step sol) g
        (replicate WORD_LENGTH (Some absent), map (fun _ => false) sol))).1
  = Some <$> Reference.presence g sol (seq 0 WORD_LENGTH) (consumed0 g sol).
Proof.
  pose proof (forEach_inv (green_inv WORD_LENGTH g sol) (green_step sol) g _ green_inv_init) as H1.
  rewrite guess_length in H1.
  specialize (H1 (fun i x s Hx Hs => green_inv_step i x s Hx Hs)).
  apply yellow_inv_init in H1.
  pose proof (forEach_inv (yellow_inv WORD_LENGTH g sol) (yellow_step sol) g _ H1) as H2.
  rewrite guess_length in H2.
  specialize (H2 (fun i x s Hx Hs => yellow_inv_step i x s Hx Hs)).
  destruct H2 as (Hl1 & _ & out & c & Hout & Href & _ & Hdone & _).
  rewrite Nat.sub_diag in Href. simpl in Href. rewrite app_nil_r in Href.
  rewrite Href. apply list_eq. intros i. rewrite list_lookup_fmap.
  destruct (decide (i < WORD_LENGTH)) as [Hi | Hi].
  - rewrite (Hdone i Hi).
    destruct (lookup_lt_is_Some_2 out i ltac:(lia)) as [v Hv]. by rewrite Hv.
  - rewrite (lookup_ge_None_2 out) by lia. apply lookup_ge_None_2. lia.
Qed.

End ScorerProofs.

(** C1: for a guess and a solution of length L, the scorer returns the status
    sequence of the two-pass reference algorithm: exact matches are marked
    correct and consume their solution position, then every other guess
    position, left to right, is marked present and consumes the lowest
    unconsumed solution position holding its letter when there is one, and
    absent otherwise. *)
Theorem getGuessStatuses_reference (L : nat) (guess solution : string) :
  String.length guess = L ->
  String.length solution = L ->
  getGuessStatuses L guess solution = Some <$> Reference.score guess solution.
Proof.
  intros Hg _. unfold getGuessStatuses, Reference.score.
  assert (Hl : length (JS.split guess) = L) by by rewrite split_length.
  rewrite (scorer_passes_reference L (JS.split guess) (JS.split solution) Hl).
  unfold consumed0. by rewrite Hl.
Qed.

Lemma getGuessStatuses_reference_witness :
  getGuessStatuses 5 "SPEED" "ERASE" = Some <$> Reference.score "SPEED" "ERASE".
Proof. apply (getGuessStatuses_reference 5 "SPEED" "ERASE"); reflexivity. Defined.

(** The scorer never writes [initial]. *)
Lemma getGuessStatuses_not_initial (L : nat) (guess solution : string) (i : nat) :
  JS.sparse_get (getGuessStatuses L guess solution) i ≠ Some initial.
Proof.
  unfold getGuessStatuses.
  set (P := fun (_ : nat) (st : scorer_state) => Forall (fun o => o ≠ Some initial) st.1).
  assert (Hset : forall k v (l : list (option CharStatus)),
             v ≠ initial -> Forall (fun o => o ≠ Some initial) l ->
             Forall (fun o => o ≠ Some initial) (JS.sparse_set k v l)).
  { intros k v l Hv Hl. unfold JS.sparse_set. case_decide.
    - apply Forall_insert; [done | congruence].
    - apply Forall_app. split; [done |]. apply Forall_app. split.
      + apply Forall_replicate. done.
      + apply Forall_singleton. congruence. }
  assert (H1 : P (length (JS.split guess))
                 (JS.forEach (green_step (JS.split solution)) (JS.split guess)
                    (replicate L (Some absent), map (fun _ => false) (JS.split solution)))).
  { apply forEach_inv.
    - apply Forall_replicate. done.
    - intros k x [st tk] _ Hs. unfold P, green_step in *. case_decide; [| done].
      simpl. by apply Hset. }
  assert (H2 : P (length (JS.split guess))
                 (JS.forEach (yellow_step (JS.split solution)) (JS.split guess)
                    (JS.forEach (green_step (JS.split solution)) (JS.split guess)
                       (replicate L (Some absent),
                        map (fun _ => false) (JS.split solution))))).
  { apply forEach_inv; [exact H1 |].
    intros k x [st tk] _ Hs. unfold P, yellow_step in *. case_decide; [done |].
    destruct (JS.findIndex _ _); [| done]. simpl. by apply Hset. }
  unfold P in H2. unfold JS.sparse_get.
  destruct (_ !! i) as [o |] eqn:Hi; [| done]. simpl.
  eapply Forall_lookup_1 in H2; [| exact Hi]. done.
Qed.

(** ** The keyboard aggregation *)

Section KeyboardProofs.

Variable WORD_LENGTH : nat.
Variables (guesses solutions : list string) (solvedIndices : list bool).

Lemma best_of_ext (E E' : ascii -> CharStatus -> Prop) (ks : gmap ascii CharStatus) :
  (forall c st, E c st <-> E' c st) -> best_of E ks -> best_of E' ks.
Proof.
  intros Hext H c. specialize (H c). destruct (ks !! c) as [st |].
  - destruct H as [H1 H2]. split; [by apply Hext |]. intros st' Hst'. by apply H2, Hext.
  - intros st' Hst'. by apply (H st'), Hext.
Qed.

Lemma priority_le_3 (st : CharStatus) : priority st ≤ 3.
Proof. destruct st; simpl; lia. Qed.

(** One more observation: [letter] has the status [o]. *)
Lemma key_step_best (E : ascii -> CharStatus -> Prop) (statuses : list (option CharStatus))
    (ks : gmap ascii CharStatus) (letter : ascii) (i : nat) :
  (forall c, ¬ E c initial) ->
  JS.sparse_get statuses i ≠ Some initial ->
  best_of E ks ->
  best_of (fun c st => E c st ∨ (c = letter ∧ JS.sparse_get statuses i = Some st))
          (key_step statuses ks letter i).
Proof.
  intros Hinit Hnew Hbest. unfold key_step.
  set (o := JS.sparse_get statuses i) in *.
  assert (Hkeep : forall st, ks !! letter = Some st ->
            (forall st', o = Some st' -> priority st' ≤ priority st) ->
            best_of (fun c st => E c st ∨ (c = letter ∧ o = Some st)) ks).
  { intros st Hst Hle c. pose proof (Hbest c) as Hc.
    destruct (decide (c = letter)) as [-> | Hne].
    - rewrite Hst in *. destruct Hc as [Hc1 Hc2]. split; [by left |].
      intros st' [H | [_ H]]; [by apply Hc2 | by apply Hle].
    - destruct (ks !! c) as [st0 |].
      + destruct Hc as [Hc1 Hc2]. split; [by left |].
        intros st' [H | [H _]]; [by apply Hc2 | done].
      + intros st' [H | [H _]]; [by apply (Hc st') | done]. }
  assert (Hput : forall st, o = Some st ->
            (forall st', E letter st' -> priority st' ≤ priority st) ->
            best_of (fun c st => E c st ∨ (c = letter ∧ o = Some st)) (<[letter := st]> ks)).
  { intros st Ho Hle c. destruct (decide (c = letter)) as [-> | Hne].
    - rewrite lookup_insert_eq. split; [by right |].
      intros st' [H | [_ H]]; [by apply Hle |]. rewrite Ho in H. by injection H as ->.
    - rewrite lookup_insert_ne by done. pose proof (Hbest c) as Hc.
      destruct (ks !! c) as [st0 |].
      + destruct Hc as [Hc1 Hc2]. split; [by left |].
        intros st' [H | [H _]]; [by apply Hc2 | done].
      + intros st' [H | [H _]]; [by apply (Hc st') | done]. }
  assert (Hcur : forall st', E letter st' ->
            match ks !! letter with
            | Some st => priority st' ≤ priority st
            | None => False
            end).
  { intros st' H. pose proof (Hbest letter) as Hc. destruct (ks !! letter).
    - by apply Hc.
    - by apply (Hc st'). }
  assert (Hcur_init : ks !! letter ≠ Some initial).
  { intros H. pose proof (Hbest letter) as Hc. rewrite H in Hc. by apply (Hinit letter), Hc. }
  destruct (decide (ks !! letter = Some correct)) as [Hc | Hc].
  { apply (Hkeep correct Hc). intros st' _. apply priority_le_3. }
  destruct (decide (o = Some correct)) as [Ho | Ho].
  { apply (Hput correct Ho). intros st' _. apply priority_le_3. }
  destruct (decide (ks !! letter = Some present)) as [Hp | Hp].
  { apply (Hkeep present Hp). intros st' Hst'. destruct st'; simpl; try lia; congruence. }
  destruct (decide (o = Some present)) as [Hop | Hop].
  { apply (Hput present Hop). intros st' Hst'. apply Hcur in Hst'.
    destruct (ks !! letter) as [[] |]; destruct st'; simpl in *; try lia; congruence. }
  destruct (decide (o = Some absent)) as [Hoa | Hoa].
  { apply (Hput absent Hoa). intros st' Hst'. pose proof (Hinit letter) as Hi.
    apply Hcur in Hst' as Hle.
    destruct (ks !! letter) as [[] |]; destruct st'; simpl in *; try lia; congruence. }
  assert (Hnone : o = None).
  { destruct o as [[] |]; congruence. }
  eapply best_of_ext; [| exact Hbest].
  intros c st. split; [by left |]. intros [H | [_ H]]; [done | congruence].
Qed.

Lemma seen_positions_not_initial guess sol k c : ¬ seen_positions WORD_LENGTH guess sol k c initial.
Proof. intros (i & _ & _ & H). by apply getGuessStatuses_not_initial in H. Qed.

Lemma seen_boards_not_initial guess n c : ¬ seen_boards WORD_LENGTH solutions solvedIndices guess n c initial.
Proof. intros (sol & j & _ & _ & _ & H). by apply seen_positions_not_initial in H. Qed.

Lemma seen_guesses_not_initial m c : ¬ seen_guesses WORD_LENGTH guesses solutions solvedIndices m c initial.
Proof. intros (guess & j & _ & _ & H). by apply seen_boards_not_initial in H. Qed.

Lemma positions_best (E : ascii -> CharStatus -> Prop) (guess sol : string)
    (ks : gmap ascii CharStatus) :
  (forall c, ¬ E c initial) ->
  best_of E ks ->
  best_of (fun c st => E c st ∨ seen_positions WORD_LENGTH guess sol (length (JS.split guess)) c st)
    (JS.forEach (key_step (getGuessStatuses WORD_LENGTH guess sol)) (JS.split guess) ks).
Proof.
  intros Hinit Hbest.
  apply (forEach_inv
           (fun k ks => best_of (fun c st => E c st ∨ seen_positions WORD_LENGTH guess sol k c st) ks)).
  - eapply best_of_ext; [| exact Hbest]. intros c st. split; [by left |].
    intros [H | (i & Hi & _)]; [done | lia].
  - intros k x ks' Hx Hks'.
    assert (Hstep := key_step_best
              (fun c st => E c st ∨ seen_positions WORD_LENGTH guess sol k c st)
              (getGuessStatuses WORD_LENGTH guess sol) ks' x k).
    eapply best_of_ext; [| apply Hstep; [| apply getGuessStatuses_not_initial | exact Hks']].
    + intros c st. simpl. split.
      * intros [[H | (i & Hi & Hc & Hst)] | [-> Hst]].
        -- by left.
        -- right. exists i. split; [lia | done].
        -- right. exists k. split; [lia | done].
      * intros [H | (i & Hi & Hc & Hst)]; [by left; left |].
        destruct (decide (i = k)) as [-> | Hne].
        -- right. split; [congruence | done].
        -- left. right. exists i. split; [lia | done].
    + intros c [H | H]; [by apply (Hinit c) | by apply seen_positions_not_initial in H].
Qed.

Lemma boards_best (E : ascii -> CharStatus -> Prop) (guess : string)
    (ks : gmap ascii CharStatus) :
  (forall c, ¬ E c initial) ->
  best_of E ks ->
  best_of (fun c st => E c st ∨ seen_boards WORD_LENGTH solutions solvedIndices guess (length solutions) c st)
    (JS.forEach (board_step WORD_LENGTH solvedIndices guess) solutions ks).
Proof.
  intros Hinit Hbest.
  apply (forEach_inv
           (fun n ks => best_of (fun c st => E c st ∨ seen_boards WORD_LENGTH solutions solvedIndices guess n c st) ks)).
  - eapply best_of_ext; [| exact Hbest]. intros c st. split; [by left |].
    intros [H | (sol & j & Hj & _)]; [done | lia].
  - intros n sol ks' Hsol Hks'. unfold board_step.
    destruct (JS.truthy_at solvedIndices n) eqn:Hsolved.
    + eapply best_of_ext; [| exact Hks']. intros c st. split.
      * intros [H | (sol' & j & Hj & H1 & H2 & H3)]; [by left |].
        right. exists sol', j. split; [lia | done].
      * intros [H | (sol' & j & Hj & H1 & H2 & H3)]; [by left |].
        destruct (decide (j = n)) as [-> | Hne]; [congruence |].
        right. exists sol', j. split; [lia | done].
    + assert (Hstep := positions_best
                (fun c st => E c st ∨ seen_boards WORD_LENGTH solutions solvedIndices guess n c st) guess sol ks').
      eapply best_of_ext; [| apply Hstep; [| exact Hks']].
      * intros c st. simpl. split.
        -- intros [[H | (sol' & j & Hj & H1 & H2 & H3)] | H].
           ++ by left.
           ++ right. exists sol', j. split; [lia | done].
           ++ right. exists sol, n. split; [lia | done].
        -- intros [H | (sol' & j & Hj & H1 & H2 & H3)]; [by left; left |].
           destruct (decide (j = n)) as [-> | Hne].
           ++ right. congruence.
           ++ left. right. exists sol', j. split; [lia | done].
      * intros c [H | H]; [by apply (Hinit c) | by apply seen_boards_not_initial in H].
Qed.

Lemma guesses_best :
  best_of (seen_guesses WORD_LENGTH guesses solutions solvedIndices (length guesses))
    (getKeyStatuses WORD_LENGTH guesses solutions solvedIndices).
Proof.
  unfold getKeyStatuses.
  apply (forEach_inv (fun m ks => best_of (seen_guesses WORD_LENGTH guesses solutions solvedIndices m) ks)).
  - intros c. rewrite lookup_empty. intros st' (guess & j & Hj & _). lia.
  - intros m guess ks' Hguess Hks'.
    assert (Hstep := boards_best (seen_guesses WORD_LENGTH guesses solutions solvedIndices m) guess ks').
    eapply best_of_ext; [| apply Hstep; [| exact Hks']].
    + intros c st. simpl. split.
      * intros [(guess' & j & Hj & H1 & H2) | H].
        -- exists guess', j. split; [lia | done].
        -- exists guess, m. split; [lia | done].
      * intros (guess' & j & Hj & H1 & H2).
        destruct (decide (j = m)) as [-> | Hne].
        -- right. congruence.
        -- left. exists guess', j. split; [lia | done].
    + intros c. apply seen_guesses_not_initial.
Qed.

Lemma seen_guesses_evidence (c : ascii) (st : CharStatus) :
  seen_guesses WORD_LENGTH guesses solutions solvedIndices (length guesses) c st
  <-> evidence WORD_LENGTH guesses solutions solvedIndices c st.
Proof.
  split.
  - intros (guess & gi & Hgi & Hg & sol & j & Hj & Hsol & Hsolved & i & Hi & Hc & Hst).
    exists guess, sol, j, i. split_and!; try done. by eapply list_elem_of_lookup_2.
  - intros (guess & sol & j & i & Hg & Hsol & Hsolved & Hc & Hst).
    apply list_elem_of_lookup_1 in Hg as [gi Hgi].
    exists guess, gi. split; [by eapply lookup_lt_Some |]. split; [done |].
    exists sol, j. split; [by eapply lookup_lt_Some |]. split; [done |]. split; [done |].
    exists i. split; [by eapply lookup_lt_Some | done].
Qed.

End KeyboardProofs.

Lemma key_step_monotone (statuses : list (option CharStatus))
    (ks : gmap ascii CharStatus) (letter : ascii) (i : nat) (c : ascii) :
  entry_priority (ks !! c) ≤ entry_priority (key_step statuses ks letter i !! c).
Proof.
  unfold key_step.
  repeat case_decide; try done;
    (destruct (decide (c = letter)) as [-> | Hne];
     [rewrite lookup_insert_eq | by rewrite lookup_insert_ne by done]);
    destruct (ks !! letter) as [[] |]; simpl; try lia; congruence.
Qed.

(** C9: the keyboard map gives every letter the status of highest priority
    (correct > present > absent) among the scorer statuses of that letter
    over every submitted guess and every solution whose board is not solved,
    and no entry to a letter without such a status; no step of the fold
    lowers the priority of an entry, and a solved board is skipped. *)
Theorem getKeyStatuses_best_evidence (L : nat) (guesses solutions : list string)
    (solvedIndices : list bool) :
  (forall letter,
     match getKeyStatuses L guesses solutions solvedIndices !! letter with
     | Some st =>
         evidence L guesses solutions solvedIndices letter st ∧
         forall st', evidence L guesses solutions solvedIndices letter st' ->
                     priority st' ≤ priority st
     | None => forall st', ¬ evidence L guesses solutions solvedIndices letter st'
     end) ∧
  (forall statuses keyStatuses letter i c,
     entry_priority (keyStatuses !! c)
     ≤ entry_priority (key_step statuses keyStatuses letter i !! c)) ∧
  (forall guess keyStatuses sol solIndex,
     solvedIndices !! solIndex = Some true ->
     board_step L solvedIndices guess keyStatuses sol solIndex = keyStatuses).
Proof.
  split_and!.
  - apply (best_of_ext (seen_guesses L guesses solutions solvedIndices (length guesses))).
    + apply seen_guesses_evidence.
    + apply guesses_best.
  - intros. apply key_step_monotone.
  - intros guess ks sol j Hj. unfold board_step, JS.truthy_at. by rewrite Hj.
Qed.


(** ** The game *)

Lemma findIndex_from_Some {A : Type} (p : A -> nat -> bool) (k : nat) (l : list A) (h : nat) :
  JS.findIndex_from p k l = Some h <->
  k ≤ h ∧ (∃ x, l !! (h - k) = Some x ∧ p x h = true) ∧
  forall j x, k ≤ j < h -> l !! (j - k) = Some x -> p x j = false.
Proof.
  revert k. induction l as [| y l IH]; intros k; simpl.
  - split; [done |]. intros (_ & (x & Hx & _) & _). done.
  - destruct (p y k) eqn:Hp.
    + split.
      * intros [= <-]. split; [lia |]. split.
        -- exists y. by rewrite Nat.sub_diag.
        -- intros j x Hj. lia.
      * intros (Hle & (x & Hx & Hpx) & Hlow). f_equal.
        destruct (decide (k = h)) as [| Hne]; [done |].
        specialize (Hlow k y ltac:(lia)). rewrite Nat.sub_diag in Hlow.
        specialize (Hlow eq_refl). congruence.
    + rewrite IH. split.
      * intros (Hle & (x & Hx & Hpx) & Hlow). split; [lia |]. split.
        -- exists x. split; [| done]. replace (h - k) with (S (h - S k)) by lia. done.
        -- intros j x' Hj Hx'. destruct (decide (j = k)) as [-> | Hne].
           ++ rewrite Nat.sub_diag in Hx'. simpl in Hx'. congruence.
           ++ apply (Hlow j x'); [lia |].
              replace (j - k) with (S (j - S k)) in Hx' by lia. done.
      * intros (Hle & (x & Hx & Hpx) & Hlow).
        assert (k ≠ h).
        { intros ->. rewrite Nat.sub_diag in Hx. simpl in Hx. congruence. }
        split; [lia |]. split.
        -- exists x. split; [| done]. replace (h - k) with (S (h - S k)) in Hx by lia. done.
        -- intros j x' Hj Hx'. apply (Hlow j x'); [lia |].
           replace (j - k) with (S (j - S k)) by lia. done.
Qed.

Lemma findIndex_from_None {A : Type} (p : A -> nat -> bool) (k : nat) (l : list A) :
  JS.findIndex_from p k l = None <-> forall j x, l !! j = Some x -> p x (k + j) = false.
Proof.
  revert k. induction l as [| y l IH]; intros k; simpl.
  - split; [| done]. intros _ j x Hx. done.
  - destruct (p y k) eqn:Hp.
    + split; [done |]. intros H. specialize (H 0 y eq_refl).
      rewrite Nat.add_0_r in H. congruence.
    + rewrite IH. split.
      * intros H [| j] x Hx.
        -- simpl in Hx. injection Hx as <-. by rewrite Nat.add_0_r.
        -- replace (k + S j) with (S k + j) by lia. by apply H.
      * intros H j x Hx. replace (S k + j) with (k + S j) by lia. by apply H.
Qed.

Lemma first_unsolved_Some (l : list bool) (h : nat) :
  first_unsolved l = Some h <->
  l !! h = Some false ∧ forall j, j < h -> l !! j = Some true.
Proof.
  unfold first_unsolved, JS.findIndex. rewrite findIndex_from_Some. split.
  - intros (_ & (x & Hx & Hp) & Hlow). rewrite Nat.sub_0_r in Hx.
    apply negb_true_iff in Hp as ->. split; [done |].
    intros j Hj. destruct (lookup_lt_is_Some_2 l j) as [b Hb].
    { apply lookup_lt_Some in Hx. lia. }
    specialize (Hlow j b ltac:(lia)). rewrite Nat.sub_0_r in Hlow.
    specialize (Hlow Hb). apply negb_false_iff in Hlow as ->. done.
  - intros [Hh Hlow]. split; [lia |]. split.
    + exists false. by rewrite Nat.sub_0_r.
    + intros j x Hj Hx. rewrite Nat.sub_0_r in Hx. rewrite Hlow in Hx by lia.
      by injection Hx as <-.
Qed.

Lemma first_unsolved_None (l : list bool) :
  first_unsolved l = None <-> Forall (fun b => b = true) l.
Proof.
  unfold first_unsolved, JS.findIndex. rewrite findIndex_from_None, Forall_lookup. split.
  - intros H j b Hb. apply H in Hb. by apply negb_false_iff in Hb.
  - intros H j b Hb. apply H in Hb as ->. done.
Qed.

Lemma random_index_lt (r n : nat) : 0 < n -> JS.random_index r n < n.
Proof.
  intros Hn. destruct n as [| n]; [lia |]. unfold JS.random_index.
  apply Nat.mod_upper_bound. lia.
Qed.

(** *** The selection loop *)

Lemma select_loop_unfold (validWords : list string) (n : nat) (draws : list nat)
    (newSolutions : list (option string)) :
  select_loop validWords n draws newSolutions
  = if decide (length newSolutions < n) then
      match draws with
      | [] => None
      | r :: draws' =>
          let randomWord := validWords !! JS.random_index r (length validWords) in
          if decide (randomWord ∈ newSolutions)
          then select_loop validWords n draws' newSolutions
          else select_loop validWords n draws' (newSolutions ++ [randomWord])
      end
    else Some newSolutions.
Proof. by destruct draws. Qed.

(** When the loop ends it holds exactly [n] pairwise distinct entries, each
    of them drawn from [validWords]. *)
Lemma select_loop_sound (validWords : list string) (n : nat) (draws : list nat)
    (acc res : list (option string)) :
  select_loop validWords n draws acc = Some res ->
  length acc ≤ n -> NoDup acc ->
  length res = n ∧ NoDup res ∧
  forall o, o ∈ res ->
    o ∈ acc ∨ ∃ r, o = validWords !! JS.random_index r (length validWords).
Proof.
  revert acc. induction draws as [| r draws IH]; intros acc; rewrite select_loop_unfold.
  - case_decide; [done |]. intros [= <-] Hle Hnd. split; [lia |]. split; [done |]. auto.
  - case_decide as Hlt; [| intros [= <-] Hle Hnd; split; [lia |]; split; [done |]; auto].
    simpl. case_decide as Hin.
    + apply IH.
    + intros Hres Hle Hnd. apply IH in Hres as (Hlen & Hnd' & Hfrom).
      * split; [done |]. split; [done |]. intros o Ho.
        apply Hfrom in Ho as [Ho | Ho]; [| by right].
        apply elem_of_app in Ho as [Ho | Ho]; [by left |]. right.
        apply list_elem_of_singleton in Ho. by exists r.
      * rewrite length_app. simpl. lia.
      * apply NoDup_app. split; [done |]. split; [| apply NoDup_singleton].
        intros o Ho Ho'. apply list_elem_of_singleton in Ho'. by subst.
Qed.

(** The loop ends on every sequence of draws that hits [n] distinct entries:
    the draws past that point are not looked at. *)
Lemma select_loop_returns (validWords : list string) (n : nat) (draws : list nat)
    (acc : list (option string)) :
  NoDup acc ->
  n ≤ size (list_to_set
              (acc ++ ((fun r => validWords !! JS.random_index r (length validWords))
                         <$> draws)) : gset (option string)) ->
  is_Some (select_loop validWords n draws acc).
Proof.
  revert acc. induction draws as [| r draws IH]; intros acc Hnd Hsize;
    rewrite select_loop_unfold.
  - simpl in Hsize. rewrite app_nil_r, size_list_to_set in Hsize by done.
    rewrite decide_False by lia. done.
  - case_decide as Hlt; [| done]. simpl. simpl in Hsize. case_decide as Hin.
    + apply IH; [done |]. etrans; [exact Hsize |]. apply Nat.eq_le_incl. f_equal.
      apply set_eq. intros o. rewrite !elem_of_list_to_set, !elem_of_app, elem_of_cons.
      split.
      * intros [Ho | [-> | Ho]]; [by left | by left | by right].
      * intros [Ho | Ho]; [by left | by right; right].
    + apply IH.
      * apply NoDup_app. split; [done |]. split; [| apply NoDup_singleton].
        intros o Ho Ho'. apply list_elem_of_singleton in Ho'. by subst.
      * by rewrite <- (assoc_L (++)).
Qed.

Lemma mapM_id_fmap {A : Type} (l : list (option A)) (k : list A) :
  mapM id l = Some k -> l = Some <$> k.
Proof.
  rewrite mapM_Some. induction 1 as [| x y l k Hxy _ IH]; [done |].
  simpl in *. by rewrite Hxy, IH.
Qed.

(** *** The pieces of the handlers *)

Lemma solve_forEach_from (w : string) (a : nat) (sols : list string) :
  forall (pre rest : list bool) (tp sc : Z),
    length rest = length sols ->
    JS.forEach_from (solve_step w a) (length pre) sols (pre ++ rest, tp, sc)
    = (pre ++ solved_after w rest sols,
       (tp + Z.max 10 (100 - Z.of_nat a * 15) * Z.of_nat (solving_boards w rest sols))%Z,
       (sc + Z.max 10 (100 - Z.of_nat a * 15) * Z.of_nat (solving_boards w rest sols))%Z).
Proof.
  induction sols as [| sol sols IH]; intros pre rest tp sc Hlen.
  - destruct rest; [| done]. simpl. unfold solving_boards. simpl.
    by rewrite !Z.mul_0_r, !Z.add_0_r.
  - destruct rest as [| b rest]; [done |]. simpl in Hlen.
    cbn [JS.forEach_from]. unfold solve_step at 2.
    assert (Ht : JS.truthy_at (pre ++ b :: rest) (length pre) = b).
    { unfold JS.truthy_at. by rewrite list_lookup_middle. }
    rewrite Ht.
    assert (Hpre : forall b', S (length pre) = length (pre ++ [b'])).
    { intros b'. rewrite length_app. simpl. lia. }
    unfold solved_after, solving_boards. simpl. rewrite filter_cons. simpl.
    destruct b; simpl.
    + rewrite (Hpre true), (cons_middle true pre rest), (assoc_L (++)).
      rewrite IH by lia. by rewrite <- (assoc_L (++)).
    + destruct (bool_decide (w = sol)) eqn:Hw.
      * apply bool_decide_eq_true in Hw. rewrite decide_True by done.
        rewrite assign_in_range by (rewrite length_app; simpl; lia).
        rewrite insert_app_r_alt by lia. rewrite Nat.sub_diag. simpl.
        rewrite (Hpre true), (cons_middle true pre rest), (assoc_L (++)).
        rewrite IH by lia. rewrite <- (assoc_L (++)). simpl.
        unfold solved_after, solving_boards. f_equal; [f_equal |]; lia.
      * apply bool_decide_eq_false in Hw.
        rewrite decide_False by (intros [_ ?]; done).
        rewrite (Hpre false), (cons_middle false pre rest), (assoc_L (++)).
        rewrite IH by lia. by rewrite <- (assoc_L (++)).
Qed.

Lemma solve_forEach (w : string) (a : nat) (solved : list bool) (sols : list string)
    (sc : Z) :
  length solved = length sols ->
  JS.forEach (solve_step w a) sols (solved, 0%Z, sc)
  = (solved_after w solved sols,
     (Z.max 10 (100 - Z.of_nat a * 15) * Z.of_nat (solving_boards w solved sols))%Z,
     (sc + Z.max 10 (100 - Z.of_nat a * 15) * Z.of_nat (solving_boards w solved sols))%Z).
Proof.
  intros Hlen. unfold JS.forEach.
  pose proof (solve_forEach_from w a sols [] solved 0%Z sc Hlen) as H.
  simpl in H. rewrite H. by rewrite Z.add_0_l.
Qed.

Lemma solved_after_length (w : string) (solved : list bool) (sols : list string) :
  length solved = length sols -> length (solved_after w solved sols) = length sols.
Proof. intros H. unfold solved_after. rewrite length_zip_with. lia. Qed.

Lemma solved_after_lookup (w : string) (solved : list bool) (sols : list string)
    (i : nat) (b : bool) (sol : string) :
  solved !! i = Some b -> sols !! i = Some sol ->
  solved_after w solved sols !! i = Some (b || bool_decide (w = sol)).
Proof. intros Hb Hs. unfold solved_after. rewrite lookup_zip_with, Hb. simpl. by rewrite Hs. Qed.

Lemma filter_none {A : Type} (P : A -> Prop) `{!forall x, Decision (P x)} (l : list A) :
  (forall x, x ∈ l -> ¬ P x) -> filter P l = [].
Proof.
  induction l as [| x l IH]; intros Hno; [done |].
  rewrite filter_cons_False by (apply Hno; left). apply IH. intros y Hy. apply Hno. by right.
Qed.

(** With pairwise distinct solutions a word solves at most one board. *)
Lemma solving_boards_one (w : string) (solved : list bool) (sols : list string) (i : nat) :
  NoDup sols -> solved !! i = Some false -> sols !! i = Some w ->
  solving_boards w solved sols = 1.
Proof.
  unfold solving_boards. revert solved i.
  induction sols as [| sol sols IH]; intros solved i Hnd Hb Hs; [done |].
  destruct solved as [| b solved]; [done |]. apply NoDup_cons in Hnd as [Hnotin Hnd].
  simpl. rewrite filter_cons. simpl. destruct i as [| i]; simpl in *.
  - injection Hb as ->. injection Hs as ->. rewrite decide_True by done. simpl. f_equal.
    apply length_zero_iff_nil, filter_none.
    intros [b' sol'] Hin [_ Heq]. simpl in *. subst sol'.
    apply elem_of_zip_r in Hin. done.
  - rewrite decide_False.
    + by apply (IH solved i).
    + intros [_ ->]. apply Hnotin. by eapply list_elem_of_lookup_2.
Qed.

(** A word that is the solution of no unsolved board solves nothing. *)
Lemma solving_boards_none (w : string) (solved : list bool) (sols : list string) :
  (forall i, sols !! i = Some w -> solved !! i = Some true) ->
  solving_boards w solved sols = 0.
Proof.
  intros H. unfold solving_boards.
  apply length_zero_iff_nil, filter_none.
  intros [b sol] Hin [Hb Heq]. simpl in *. subst.
  apply list_elem_of_lookup_1 in Hin as [i Hi]. apply lookup_zip_with_Some in Hi.
  destruct Hi as (b & sol & [= <- <-] & Hb & Hs). apply H in Hs. congruence.
Qed.

Lemma forallb_id_Forall (l : list bool) :
  forallb id l = true <-> Forall (fun b => b = true) l.
Proof.
  induction l as [| b l IH]; simpl; [by split |].
  rewrite andb_true_iff, Forall_cons, IH. done.
Qed.

(** [prefill]: the revealed letters in an otherwise empty row. *)
Lemma foldl_assign_lookup (l : list (nat * string)) :
  forall base : list string,
    NoDup l.*1 -> Forall (fun p => p.1 < length base) l ->
    let r := foldl (fun nextGuess '(idx, char) => JS.assign "" idx char nextGuess) base l in
    length r = length base ∧
    forall i, r !! i = match (list_to_map l : gmap nat string) !! i with
                       | Some v => if decide (i < length base) then Some v else None
                       | None => base !! i
                       end.
Proof.
  induction l as [| [k v] l IH]; intros base Hnd Hlt; simpl.
  - split; [done |]. intros i. by rewrite lookup_empty.
  - apply NoDup_cons in Hnd as [Hk Hnd]. apply Forall_cons in Hlt as [Hkl Hlt].
    simpl in *. rewrite assign_in_range by done.
    destruct (IH (<[k := v]> base) Hnd) as [Hlen Hlook].
    { rewrite length_insert. done. }
    rewrite length_insert in *. split; [done |]. intros i. rewrite Hlook.
    destruct (decide (i = k)) as [-> | Hne].
    + rewrite lookup_insert_eq. rewrite (not_elem_of_list_to_map_1 _ _ Hk).
      rewrite list_lookup_insert_eq by done. by rewrite decide_True.
    + rewrite lookup_insert_ne by done. by rewrite list_lookup_insert_ne by done.
Qed.

Lemma prefill_spec (L : nat) (revealedHints : gmap nat string) :
  map_Forall (fun i _ => i < L) revealedHints ->
  length (prefill L revealedHints) = L ∧
  forall i, i < L -> prefill L revealedHints !! i = Some (default "" (revealedHints !! i)).
Proof.
  intros Hkeys. unfold prefill.
  destruct (foldl_assign_lookup (map_to_list revealedHints) (replicate L ""))
    as [Hlen Hlook].
  - apply NoDup_fst_map_to_list.
  - apply Forall_forall. intros [k v] Hin. apply elem_of_map_to_list in Hin.
    rewrite length_replicate. by apply (Hkeys k v).
  - rewrite length_replicate in *. split; [done |]. intros i Hi.
    rewrite Hlook, list_to_map_to_list. destruct (revealedHints !! i); simpl.
    + by rewrite decide_True.
    + by apply lookup_replicate_2.
Qed.

(** The cursor loop. *)
Lemma advance_stays (L fuel : nat) (currentGuess : list string) (n : nat) :
  currentGuess !! n = Some "" -> advance L fuel currentGuess n = n.
Proof.
  intros H. destruct fuel; [done |]. simpl. rewrite decide_False; [done |].
  intros [_ Hne]. done.
Qed.

Lemma advance_lt (L fuel : nat) (currentGuess : list string) (n : nat) :
  n < L -> advance L fuel currentGuess n < L.
Proof.
  revert n. induction fuel as [| fuel IH]; intros n Hn; simpl; [done |].
  case_decide as Hc; [| done]. apply IH. lia.
Qed.

(** The loop leaves by its own test: the fuel does not run out. *)
Lemma advance_exits (L fuel : nat) (currentGuess : list string) (n : nat) :
  L - 1 - n ≤ fuel ->
  let m := advance L fuel currentGuess n in
  ¬ (m < L - 1 ∧ currentGuess !! m ≠ Some "").
Proof.
  revert n. induction fuel as [| fuel IH]; intros n Hfuel; simpl.
  - intros [Hm _]. lia.
  - case_decide as Hc; [| done]. apply IH. lia.
Qed.

Lemma elem_of_availableIndices (currentGuess : list string)
    (revealedHints : gmap nat string) (i : nat) :
  i ∈ availableIndices currentGuess revealedHints
  <-> currentGuess !! i = Some "" ∧ not_revealed revealedHints i = true.
Proof.
  unfold availableIndices. rewrite list_elem_of_fmap. split.
  - intros ([ch j] & -> & Hin). apply list_elem_of_filter in Hin as [[Hch Hnr] Hin].
    simpl in *. apply elem_of_lookup_imap in Hin as (j' & ch' & [= -> ->] & Hj). by subst.
  - intros [Hi Hnr]. exists ("", i). split; [done |]. apply list_elem_of_filter.
    split; [done |]. apply elem_of_lookup_imap. by exists i, "".
Qed.

(** *** Well-formedness is kept by every handler *)

Section GameProofs.

Variable WORD_LENGTH : nat.
Variable WORDS : list string.
Variable VALID_GUESSES : list string.

Lemma accept_eq (w : string) (s : State) :
  length (solvedIndices s) = length (solutions s) ->
  accept WORD_LENGTH w s
  = settle WORD_LENGTH w s
      (solved_after w (solvedIndices s) (solutions s),
       (Z.max 10 (100 - Z.of_nat (length (guesses s)) * 15)
        * Z.of_nat (solving_boards w (solvedIndices s) (solutions s)))%Z,
       (score s + Z.max 10 (100 - Z.of_nat (length (guesses s)) * 15)
                  * Z.of_nat (solving_boards w (solvedIndices s) (solutions s)))%Z).
Proof. intros Hlen. unfold accept. by rewrite solve_forEach. Qed.

Lemma wf_feedback (shake : bool) (text : Toast) (s : State) :
  wf WORD_LENGTH s -> wf WORD_LENGTH (feedback shake text s).
Proof. intros []. by constructor. Qed.

Lemma wf_setActiveTileIndex (i : nat) (s : State) :
  i < WORD_LENGTH -> wf WORD_LENGTH s -> wf WORD_LENGTH (setActiveTileIndex i s).
Proof. intros Hi []. by constructor. Qed.

Lemma wf_setCurrentGuess (g : list string) (s : State) :
  length g = WORD_LENGTH -> wf WORD_LENGTH s -> wf WORD_LENGTH (setCurrentGuess g s).
Proof. intros Hg []. by constructor. Qed.

Lemma wf_accept (w : string) (s : State) :
  wf WORD_LENGTH s -> gameStatus s = playing -> wf WORD_LENGTH (accept WORD_LENGTH w s).
Proof.
  intros Hwf Hplay. rewrite accept_eq by apply Hwf. destruct Hwf.
  set (ns := solved_after w (solvedIndices s) (solutions s)).
  assert (Hns : length ns = length (solutions s)) by by apply solved_after_length.
  assert (Hkeep : forall h, first_unsolved (solvedIndices s) = Some h ->
                            JS.truthy_at ns h = false -> first_unsolved ns = Some h).
  { intros h Hfirst Ht. apply first_unsolved_Some in Hfirst as [Hh Hlow].
    apply first_unsolved_Some.
    destruct (lookup_lt_is_Some_2 (solutions s) h) as [sol Hsol].
    { apply lookup_lt_Some in Hh. lia. }
    pose proof (solved_after_lookup w _ _ h _ _ Hh Hsol) as Hnh. fold ns in Hnh.
    unfold JS.truthy_at in Ht. rewrite Hnh in Ht. rewrite Hnh, Ht. split; [done |].
    intros j Hj. destruct (lookup_lt_is_Some_2 (solutions s) j) as [solj Hsolj].
    { apply lookup_lt_Some in Hsol. lia. }
    unfold ns. by rewrite (solved_after_lookup w _ _ j true solj (Hlow j Hj) Hsolj). }
  constructor; simpl; try done.
  - destruct (hintedSolutionIndex s) as [h |]; [destruct (JS.truthy_at ns h) |].
    + apply length_replicate.
    + by apply prefill_spec.
    + by apply prefill_spec.
  - destruct (hintedSolutionIndex s) as [h |]; [destruct (JS.truthy_at ns h) |]; try done.
  - destruct (hintedSolutionIndex s) as [h |] eqn:Hh; [destruct (JS.truthy_at ns h) |];
      done.
  - intros h'. destruct (hintedSolutionIndex s) as [h |] eqn:Hh;
      [destruct (JS.truthy_at ns h) eqn:Ht |]; try done.
    intros [= <-]. apply Hkeep; [| done]. by apply wf_hint_target0.
  - unfold all_solved. simpl. rewrite <- forallb_id_Forall.
    destruct (forallb id ns); [done |]. split; [| done].
    case_decide; [done |]. congruence.
  - destruct (forallb id ns); [done |]. case_decide; [done |]. congruence.
Qed.

Lemma wf_submit (s : State) :
  wf WORD_LENGTH s -> gameStatus s = playing -> wf WORD_LENGTH (submit WORD_LENGTH s).
Proof.
  intros Hwf Hplay. unfold submit.
  case_decide; [by apply wf_feedback |].
  case_decide; [by apply wf_feedback |].
  by apply wf_accept.
Qed.

Lemma wf_onKeyDown (key : string) (s : State) :
  wf WORD_LENGTH s -> wf WORD_LENGTH (onKeyDown WORD_LENGTH key s).
Proof.
  intros Hwf. unfold onKeyDown.
  pose proof (wf_cursor _ _ Hwf) as Hcur. pose proof (wf_buffer_length _ _ Hwf) as Hbuf.
  case_decide as Hplay; [done |].
  case_decide.
  { case_decide.
    - apply wf_setCurrentGuess; [| done]. rewrite assign_length_in_range; [done | lia].
    - apply wf_setActiveTileIndex; [lia |].
      apply wf_setCurrentGuess; [| done]. rewrite assign_length_in_range; [done | lia]. }
  case_decide; [apply wf_setActiveTileIndex; [lia | done] |].
  case_decide; [apply wf_setActiveTileIndex; [lia | done] |].
  case_decide; [by apply wf_submit |].
  destruct (is_letter key); [| done].
  assert (wf WORD_LENGTH
            (setCurrentGuess (JS.assign "" (activeTileIndex s) key (currentGuess s)) s)).
  { apply wf_setCurrentGuess; [| done]. rewrite assign_length_in_range; [done | lia]. }
  case_decide; [| done]. apply wf_setActiveTileIndex; [simpl; lia | done].
Qed.

Lemma wf_handleHint (r : nat) (s s' : State) :
  wf WORD_LENGTH s -> handleHint WORD_LENGTH r s = Some s' -> wf WORD_LENGTH s'.
Proof.
  intros Hwf. unfold handleHint.
  case_decide as Hplay; [by intros [= <-] |].
  case_decide; [intros [= <-]; by apply wf_feedback |].
  fold (first_unsolved (solvedIndices s)).
  destruct (first_unsolved (solvedIndices s)) as [cur |] eqn:Hcur; [| by intros [= <-]].
  set (retarget := match hintedSolutionIndex s with
                   | Some h => JS.truthy_at (solvedIndices s) h || bool_decide (h ≠ cur)
                   | None => true
                   end).
  set (active := if retarget then cur else default cur (hintedSolutionIndex s)).
  set (s1 := if retarget then setHintTarget (Some active) ∅ s else s).
  assert (Hactive : active = cur).
  { unfold active. destruct retarget eqn:Hr; [done |]. unfold retarget in Hr.
    destruct (hintedSolutionIndex s) as [h |]; [| done]. simpl.
    apply orb_false_iff in Hr as [_ Hr]. apply bool_decide_eq_false in Hr.
    by apply dec_stable in Hr. }
  assert (Htarget : hintedSolutionIndex s1 = Some cur).
  { unfold s1. destruct retarget eqn:Hr; simpl; [by rewrite Hactive |].
    unfold retarget in Hr. destruct (hintedSolutionIndex s) as [h |]; [| done].
    apply orb_false_iff in Hr as [_ Hr]. apply bool_decide_eq_false in Hr.
    apply dec_stable in Hr. by rewrite Hr. }
  assert (Hwf1 : wf WORD_LENGTH s1).
  { unfold s1. destruct retarget; [| done]. destruct Hwf. constructor; simpl; try done.
    intros h [= <-]. by rewrite Hactive. }
  case_decide as Havail; [intros [= <-]; by apply wf_feedback |].
  destruct (availableIndices (currentGuess s) (revealedHints s) !! _)
    as [randomIndex |] eqn:Hri; [| done]. simpl.
  destruct (solutions s !! active) as [targetSolution |] eqn:Hts; [| done]. simpl.
  destruct (JS.char_at targetSolution randomIndex) as [correctLetter |] eqn:Hcl; [| done].
  simpl. intros [= <-].
  apply list_elem_of_lookup_2, elem_of_availableIndices in Hri as [Hslot _].
  pose proof (lookup_lt_Some _ _ _ Hslot) as Hlt.
  destruct Hwf. rewrite wf_buffer_length0 in Hlt.
  constructor; simpl; try done.
  - rewrite assign_length_in_range; [done | lia].
  - case_decide; [| done]. by apply advance_lt.
  - by apply map_Forall_insert_2.
  - rewrite Htarget. done.
  - rewrite Htarget. by intros h [= <-].
Qed.

Lemma wf_initGame (lvl : nat) (draws : list nat) (s s' : State) :
  0 < WORD_LENGTH ->
  initGame WORD_LENGTH WORDS lvl draws s = Some s' -> wf WORD_LENGTH s'.
Proof.
  intros Hpos. unfold initGame, select_solutions.
  destruct (select_loop _ _ draws []) as [newSolutions |] eqn:Hsel; [| done]. simpl.
  destruct (mapM id newSolutions) as [sols |] eqn:Hdef; [| done]. simpl.
  intros [= <-]. apply mapM_id_fmap in Hdef as ->.
  apply select_loop_sound in Hsel as (Hlen & Hnd & Hfrom); [| simpl; lia | apply NoDup_nil_2].
  rewrite length_fmap in Hlen.
  constructor; simpl.
  - done.
  - by rewrite length_replicate.
  - done.
  - apply Forall_forall. intros w Hw.
    destruct (Hfrom (Some w)) as [Hin | [r Hin]].
    + apply list_elem_of_fmap. by exists w.
    + by apply elem_of_nil in Hin.
    + symmetry in Hin. apply list_elem_of_lookup_2, list_elem_of_filter in Hin as [Hp _].
      unfold playable in Hp.
      apply andb_true_iff in Hp as [Hp _]. by apply bool_decide_eq_true in Hp.
  - by apply (NoDup_fmap Some).
  - apply length_replicate.
  - done.
  - apply map_Forall_empty.
  - done.
  - done.
  - split; [done |]. unfold all_solved, numWords. simpl.
    rewrite Nat.add_1_r. simpl. intros H. by apply Forall_cons in H as [? _].
  - done.
Qed.

Lemma wf_step (e : Event) (s s' : State) :
  wf WORD_LENGTH s -> step WORD_LENGTH WORDS e s = Some s' -> wf WORD_LENGTH s'.
Proof.
  intros Hwf. destruct e as [key | r | i | draws | draws | draws | ws | |]; simpl.
  - intros [= <-]. by apply wf_onKeyDown.
  - case_decide; [| done]. by apply wf_handleHint.
  - case_decide as Hi; [| done]. intros [= <-]. apply wf_setActiveTileIndex; [apply Hi | done].
  - case_decide; [| done]. apply wf_initGame, Hwf.
  - case_decide; [| done]. apply wf_initGame, Hwf.
  - case_decide; [| done]. case_decide; [by intros [= <-] |].
    destruct (initGame _ _ 0 draws s) as [s0 |] eqn:Hinit; [| done]. simpl.
    intros [= <-]. apply wf_initGame in Hinit as []; [| apply Hwf]. by constructor.
  - intros [= <-]. destruct Hwf. by constructor.
  - intros [= <-]. destruct Hwf. by constructor.
  - intros [= <-]. destruct Hwf. by constructor.
Qed.

(** Every state of the component is well formed. *)
Lemma reachable_wf (s : State) :
  0 < WORD_LENGTH ->
  reachable WORD_LENGTH WORDS VALID_GUESSES s -> wf WORD_LENGTH s.
Proof.
  intros Hpos. induction 1 as [draws s Hmount | e s s' _ IH Hstep].
  - by apply wf_initGame in Hmount.
  - by apply (wf_step e s s').
Qed.

(** In a well-formed state where the game is on some board is unsolved. *)
Lemma playing_first_unsolved (s : State) :
  wf WORD_LENGTH s -> gameStatus s = playing ->
  ∃ cur, first_unsolved (solvedIndices s) = Some cur ∧ cur < length (solutions s).
Proof.
  intros Hwf Hplay. destruct (first_unsolved (solvedIndices s)) as [cur |] eqn:Hcur.
  - exists cur. split; [done |]. apply first_unsolved_Some in Hcur as [Hcur _].
    apply lookup_lt_Some in Hcur. by rewrite <- (wf_solved_length _ _ Hwf).
  - apply first_unsolved_None in Hcur. apply (wf_won _ _ Hwf) in Hcur. congruence.
Qed.

(** *** Accepted submissions *)

Lemma onKeyDown_enter (s : State) :
  gameStatus s = playing -> onKeyDown WORD_LENGTH "ENTER" s = submit WORD_LENGTH s.
Proof.
  intros Hplay. unfold onKeyDown.
  rewrite decide_False by (rewrite Hplay; auto).
  rewrite decide_False by done. rewrite decide_False by done.
  rewrite decide_False by done. by rewrite decide_True.
Qed.

Lemma onKeyDown_accepted (s : State) (w : string) :
  accepted WORD_LENGTH s w -> onKeyDown WORD_LENGTH "ENTER" s = accept WORD_LENGTH w s.
Proof.
  intros (Hplay & Hfull & -> & Hvalid). rewrite onKeyDown_enter by done. unfold submit.
  rewrite decide_False by done. rewrite decide_False by auto. done.
Qed.

(** C2: an accepted submission that equals the solution of an unsolved board
    marks that board solved and adds exactly max(10, 100 - 15 * attemptsBefore)
    points to the score, attemptsBefore being the length of Guesses before the
    word is appended: 100 points on the first attempt, 10 with six attempts
    before. *)
Theorem accepted_solve_awards_points (s : State) (w : string) (i : nat) :
  wf WORD_LENGTH s ->
  accepted WORD_LENGTH s w ->
  solvedIndices s !! i = Some false ->
  solutions s !! i = Some w ->
  let s' := onKeyDown WORD_LENGTH "ENTER" s in
  let attemptsBefore := Z.of_nat (length (guesses s)) in
  solvedIndices s' !! i = Some true ∧
  score s' = (score s + Z.max 10 (100 - 15 * attemptsBefore))%Z ∧
  length (guesses s') = S (length (guesses s)) ∧
  (attemptsBefore = 0%Z -> score s' = (score s + 100)%Z) ∧
  (attemptsBefore = 6%Z -> score s' = (score s + 10)%Z).
Proof.
  intros Hwf Hacc Hi Hw. simpl.
  rewrite (onKeyDown_accepted s w Hacc), accept_eq by apply Hwf. simpl.
  rewrite (solving_boards_one w _ _ i (wf_distinct _ _ Hwf) Hi Hw).
  rewrite (solved_after_lookup w _ _ i false w Hi Hw).
  rewrite bool_decide_eq_true_2 by done. rewrite length_app. simpl.
  split_and!; [done | lia | lia | lia | lia].
Qed.

(** C3: after an accepted submission the status is Won if every board is
    solved, else Lost if the guesses have reached maxChallenges, else Playing;
    and in every state of the component the status is Won exactly when every
    board is solved, and Lost only when some board is unsolved and the guesses
    have reached maxChallenges. *)
Theorem status_follows_solved_mask (s : State) :
  0 < WORD_LENGTH ->
  reachable WORD_LENGTH WORDS VALID_GUESSES s ->
  (gameStatus s = won <-> all_solved s) ∧
  (gameStatus s = lost ->
     ¬ all_solved s ∧ maxChallenges (level s) ≤ length (guesses s)) ∧
  (forall w, accepted WORD_LENGTH s w ->
     let s' := onKeyDown WORD_LENGTH "ENTER" s in
     gameStatus s' =
       if decide (all_solved s') then won
       else if decide (maxChallenges (level s') ≤ length (guesses s')) then lost
       else playing).
Proof.
  intros Hpos Hreach. pose proof (reachable_wf s Hpos Hreach) as Hwf. split_and!.
  - apply Hwf.
  - intros Hlost. split; [| by apply Hwf].
    intros Hall. apply Hwf in Hall. congruence.
  - intros w Hacc. simpl.
    rewrite (onKeyDown_accepted s w Hacc), accept_eq by apply Hwf. simpl.
    destruct Hacc as (Hplay & _). unfold all_solved. simpl.
    destruct (forallb id _) eqn:Hall.
    + apply forallb_id_Forall in Hall. by rewrite decide_True.
    + destruct (decide (Forall _ _)) as [H | _]; [| by rewrite Hplay].
      apply forallb_id_Forall in H. congruence.
Qed.

(** C5: after an accepted submission, if the hint target is set and its
    board is now solved, the hint state is cleared and the buffer is all
    empty; otherwise the hint state stays and the buffer is empty except that
    every revealed slot holds its revealed letter again. *)
Theorem hints_after_accepted_submission (s : State) (w : string) :
  wf WORD_LENGTH s ->
  accepted WORD_LENGTH s w ->
  let s' := onKeyDown WORD_LENGTH "ENTER" s in
  (forall h, hintedSolutionIndex s = Some h -> solvedIndices s' !! h = Some true ->
     hintedSolutionIndex s' = None ∧ revealedHints s' = ∅ ∧
     currentGuess s' = replicate WORD_LENGTH "") ∧
  ((forall h, hintedSolutionIndex s = Some h -> solvedIndices s' !! h ≠ Some true) ->
     hintedSolutionIndex s' = hintedSolutionIndex s ∧
     revealedHints s' = revealedHints s ∧
     length (currentGuess s') = WORD_LENGTH ∧
     forall i, i < WORD_LENGTH ->
       currentGuess s' !! i = Some (default "" (revealedHints s !! i))).
Proof.
  intros Hwf Hacc. simpl.
  rewrite (onKeyDown_accepted s w Hacc), accept_eq by apply Hwf. simpl.
  set (ns := solved_after w (solvedIndices s) (solutions s)).
  pose proof (prefill_spec WORD_LENGTH _ (wf_hint_slots _ _ Hwf)) as [Hlen Hlook].
  split.
  - intros h Hh Hsolved. rewrite Hh. unfold JS.truthy_at. by rewrite Hsolved.
  - intros Hnot. destruct (hintedSolutionIndex s) as [h |] eqn:Hh; [| done].
    specialize (Hnot h eq_refl). unfold JS.truthy_at.
    destruct (ns !! h) as [[] |]; done.
Qed.

(** C10: a complete word of the validation vocabulary is accepted also when
    it is already among the guesses or is the solution of a solved board: it
    is appended to the guesses, points are counted for unsolved boards only,
    so none when every board with that solution is solved, and no solved
    board becomes unsolved. *)
Theorem repeated_word_is_accepted (s : State) (w : string) :
  wf WORD_LENGTH s ->
  accepted WORD_LENGTH s w ->
  let s' := onKeyDown WORD_LENGTH "ENTER" s in
  guesses s' = guesses s ++ [w] ∧
  score s' = (score s + Z.max 10 (100 - 15 * Z.of_nat (length (guesses s)))
                        * Z.of_nat (solving_boards w (solvedIndices s) (solutions s)))%Z ∧
  ((forall i, solutions s !! i = Some w -> solvedIndices s !! i = Some true) ->
     score s' = score s) ∧
  (forall i, solvedIndices s !! i = Some true -> solvedIndices s' !! i = Some true).
Proof.
  intros Hwf Hacc. simpl.
  rewrite (onKeyDown_accepted s w Hacc), accept_eq by apply Hwf. simpl.
  split_and!.
  - done.
  - lia.
  - intros Hsolved. rewrite (solving_boards_none w _ _ Hsolved). lia.
  - intros i Hi. destruct (lookup_lt_is_Some_2 (solutions s) i) as [sol Hsol].
    { apply lookup_lt_Some in Hi. by rewrite <- (wf_solved_length _ _ Hwf). }
    by rewrite (solved_after_lookup w _ _ i true sol Hi Hsol).
Qed.

(** *** Hint requests *)

Lemma char_at_is_Some (w : string) (i : nat) :
  i < String.length w -> ∃ c, JS.char_at w i = Some (String c EmptyString).
Proof.
  unfold JS.char_at. revert i. induction w as [| a w IH]; intros i Hi; simpl in *; [lia |].
  destruct i as [| i]; simpl.
  - by exists a.
  - apply IH. lia.
Qed.

(** The three ways through [handleHint] while the game is on. *)
Lemma handleHint_cases (r : nat) (s : State) :
  wf WORD_LENGTH s -> gameStatus s = playing ->
  ((score s < hintCost s)%Z ∧
   handleHint WORD_LENGTH r s
   = Some (feedback (shakeRow s) (ToastInsufficientPoints (hintCost s)) s)) ∨
  (¬ (score s < hintCost s)%Z ∧
   availableIndices (currentGuess s) (revealedHints s) = [] ∧
   ∃ cur, first_unsolved (solvedIndices s) = Some cur ∧
     handleHint WORD_LENGTH r s
     = Some (feedback true ToastNoFreeSlot
               (match hintedSolutionIndex s with
                | None => setHintTarget (Some cur) ∅ s
                | Some _ => s
                end))) ∨
  (¬ (score s < hintCost s)%Z ∧
   availableIndices (currentGuess s) (revealedHints s) ≠ [] ∧
   ∃ cur index target letter,
     first_unsolved (solvedIndices s) = Some cur ∧
     availableIndices (currentGuess s) (revealedHints s)
       !! JS.random_index r (length (availableIndices (currentGuess s) (revealedHints s)))
       = Some index ∧
     solutions s !! cur = Some target ∧ JS.char_at target index = Some letter ∧
     handleHint WORD_LENGTH r s = Some (revealed_state s cur index letter)).
Proof.
  intros Hwf Hplay. unfold handleHint.
  rewrite decide_False by (rewrite Hplay; auto).
  case_decide as Hscore; [by left |]. right.
  destruct (playing_first_unsolved s Hwf Hplay) as (cur & Hcur & Hcurlt).
  fold (first_unsolved (solvedIndices s)). rewrite Hcur.
  assert (Hretarget :
            match hintedSolutionIndex s with
            | Some h => JS.truthy_at (solvedIndices s) h || bool_decide (h ≠ cur)
            | None => true
            end = match hintedSolutionIndex s with Some _ => false | None => true end).
  { destruct (hintedSolutionIndex s) as [h |] eqn:Hh; [| done].
    apply (wf_hint_target _ _ Hwf) in Hh. rewrite Hcur in Hh. injection Hh as ->.
    apply first_unsolved_Some in Hcur as [Hcur _]. unfold JS.truthy_at. rewrite Hcur.
    simpl. by rewrite bool_decide_eq_false_2 by auto. }
  rewrite Hretarget.
  assert (Hactive : (if match hintedSolutionIndex s with Some _ => false | None => true end
                     then cur else default cur (hintedSolutionIndex s)) = cur).
  { destruct (hintedSolutionIndex s) as [h |] eqn:Hh; [| done]. simpl.
    apply (wf_hint_target _ _ Hwf) in Hh. congruence. }
  rewrite Hactive.
  set (available := availableIndices (currentGuess s) (revealedHints s)).
  case_decide as Havail.
  - left. split; [done |]. split; [by apply length_zero_iff_nil |].
    exists cur. split; [done |]. by destruct (hintedSolutionIndex s).
  - right. split; [done |]. split.
    { intros Hnil. apply Havail. by rewrite Hnil. }
    destruct (lookup_lt_is_Some_2 available (JS.random_index r (length available)))
      as [index Hindex].
    { apply random_index_lt. lia. }
    destruct (lookup_lt_is_Some_2 (solutions s) cur Hcurlt) as [target Htarget].
    pose proof (list_elem_of_lookup_2 _ _ _ Hindex) as Hin.
    apply elem_of_availableIndices in Hin as [Hslot _].
    pose proof (lookup_lt_Some _ _ _ Hslot) as Hlt.
    destruct (char_at_is_Some target index) as [c Hc].
    { pose proof (wf_solution_length _ _ Hwf) as Hall.
      rewrite Forall_lookup in Hall. rewrite (Hall cur target Htarget).
      by rewrite <- (wf_buffer_length _ _ Hwf). }
    exists cur, index, target, (String c EmptyString).
    split_and!; try done.
    rewrite Hindex. simpl. rewrite Htarget. simpl. rewrite Hc. simpl.
    unfold revealed_state. f_equal. f_equal.
    + by apply assign_in_range.
    + case_decide as Heq; [| done]. rewrite <- Heq. by apply advance_stays.
    + destruct (hintedSolutionIndex s) as [h |] eqn:Hh; [| done]. simpl.
      rewrite Hh. apply (wf_hint_target _ _ Hwf) in Hh. congruence.
Qed.

Lemma same_game_feedback (shake : bool) (text : Toast) (s : State) :
  same_game s (feedback shake text s).
Proof. by repeat split. Qed.

(** C6, amended: a rejected action (a submission with an empty slot or of
    the wrong length, a submission of a word outside the validation
    vocabulary, a hint request with a score below the hint cost, a hint
    request without empty unrevealed slot) leaves the game state unchanged but
    for the feedback signal, except that the hint request without free slot
    sets the hint target to the first unsolved board when no target was set,
    and keeps the target that was set otherwise; the revealed slots stay as
    they are. *)
Theorem rejected_actions_keep_game (s : State) :
  wf WORD_LENGTH s ->
  gameStatus s = playing ->
  (incomplete WORD_LENGTH (currentGuess s) ->
     same_game s (onKeyDown WORD_LENGTH "ENTER" s)) ∧
  (¬ incomplete WORD_LENGTH (currentGuess s) ->
   String.concat "" (currentGuess s) ∉ validGuessesSet s ->
     same_game s (onKeyDown WORD_LENGTH "ENTER" s)) ∧
  (forall r, (score s < hintCost s)%Z ->
     ∃ s', handleHint WORD_LENGTH r s = Some s' ∧ same_game s s') ∧
  (forall r, ¬ (score s < hintCost s)%Z ->
     availableIndices (currentGuess s) (revealedHints s) = [] ->
     ∃ s', handleHint WORD_LENGTH r s = Some s' ∧ same_board s s' ∧
           revealedHints s' = revealedHints s ∧
           (hintedSolutionIndex s = None ->
              ∃ cur, first_unsolved (solvedIndices s) = Some cur ∧
                     hintedSolutionIndex s' = Some cur) ∧
           (forall h, hintedSolutionIndex s = Some h ->
              hintedSolutionIndex s' = Some h)).
Proof.
  intros Hwf Hplay. split_and!.
  - intros Hinc. rewrite onKeyDown_enter by done. unfold submit.
    rewrite decide_True by done. apply same_game_feedback.
  - intros Hfull Hunknown. rewrite onKeyDown_enter by done. unfold submit.
    rewrite decide_False by done. rewrite decide_True by done. apply same_game_feedback.
  - intros r Hscore.
    destruct (handleHint_cases r s Hwf Hplay)
      as [[_ ->] | [(Hn & _) | (Hn & _)]]; [| done | done].
    eexists. split; [done |]. apply same_game_feedback.
  - intros r Hscore Havail.
    destruct (handleHint_cases r s Hwf Hplay)
      as [[Hlt _] | [(_ & _ & cur & Hcur & ->) | (_ & Hn & _)]]; [done | | done].
    eexists. split; [done |].
    destruct (hintedSolutionIndex s) as [h |] eqn:Hh; simpl.
    + split; [by repeat split |]. split; [done |].
      split; [intros Hnone; congruence | intros h' Hh'; congruence].
    + split; [by repeat split |]. split; [by rewrite (wf_hint_none _ _ Hwf Hh) |].
      split; [intros _; by exists cur | intros h' Hh'; congruence].
Qed.

(** C7: while the game is on a hint request is turned down exactly when the
    score is below the hint cost or no slot is available, and then nothing is
    paid and no letter is revealed; every other request reveals a letter of
    the target board in an available slot, takes the hint cost off the score
    and raises the hint cost by 5, so that at a hint cost of 5 the hint takes
    5 points and the cost becomes 10. *)
Theorem hint_is_paid_unless_refused (r : nat) (s : State) :
  wf WORD_LENGTH s ->
  gameStatus s = playing ->
  ∃ s', handleHint WORD_LENGTH r s = Some s' ∧
    (hint_refused s ->
       score s' = score s ∧ hintCost s' = hintCost s ∧
       currentGuess s' = currentGuess s ∧ revealedHints s' = revealedHints s) ∧
    (¬ hint_refused s ->
       score s' = (score s - hintCost s)%Z ∧ hintCost s' = (hintCost s + 5)%Z ∧
       (hintCost s = 5%Z -> score s' = (score s - 5)%Z ∧ hintCost s' = 10%Z) ∧
       ∃ index letter,
         index ∈ availableIndices (currentGuess s) (revealedHints s) ∧
         currentGuess s' = <[index := letter]> (currentGuess s) ∧
         revealedHints s' = <[index := letter]> (revealedHints s)).
Proof.
  intros Hwf Hplay.
  destruct (handleHint_cases r s Hwf Hplay)
    as [[Hlt ->] | [(Hge & Havail & cur & Hcur & ->)
                   | (Hge & Havail & cur & index & target & letter
                      & Hcur & Hindex & Htarget & Hletter & ->)]];
    eexists; (split; [reflexivity |]); split.
  - done.
  - intros Hn. exfalso. apply Hn. by left.
  - intros _. destruct (hintedSolutionIndex s) as [h |] eqn:Hh; simpl; [done |].
    by rewrite (wf_hint_none _ _ Hwf Hh).
  - intros Hn. exfalso. apply Hn. by right.
  - intros [Hlt | Hnil]; [done | by rewrite Hnil in Havail].
  - intros _. simpl. split_and!; [done | done | lia |].
    exists index, letter. split; [| done]. by eapply list_elem_of_lookup_2.
Qed.

(** A hint never moves the cursor: when the revealed slot is the cursor's,
    the loop reads the row of the render, in which that slot is still empty. *)
Lemma handleHint_cursor (r : nat) (s : State) :
  wf WORD_LENGTH s -> gameStatus s = playing ->
  ∃ s', handleHint WORD_LENGTH r s = Some s' ∧ activeTileIndex s' = activeTileIndex s.
Proof.
  intros Hwf Hplay.
  destruct (handleHint_cases r s Hwf Hplay)
    as [[_ ->] | [(_ & _ & cur & _ & ->) | (_ & _ & cur & index & target & letter
                                            & _ & _ & _ & _ & ->)]];
    eexists; (split; [reflexivity |]); try done.
  by destruct (hintedSolutionIndex s).
Qed.

End GameProofs.

(** ** A game played on a small vocabulary *)

Lemma reachable_run (L : nat) (WORDS VALID_GUESSES : list string) (es : list Event) :
  forall os s',
    (forall s, os = Some s -> reachable L WORDS VALID_GUESSES s) ->
    foldl (fun os e => os ≫= step L WORDS e) os es = Some s' ->
    reachable L WORDS VALID_GUESSES s'.
Proof.
  induction es as [| e es IH]; intros os s' Hos; simpl.
  - apply Hos.
  - apply IH. intros s1 Hs1. destruct os as [s0 |]; [| done]. simpl in Hs1.
    eapply reachable_step; [by apply Hos | exact Hs1].
Qed.

Lemma reachable_play (L : nat) (WORDS VALID_GUESSES : list string)
    (draws : list nat) (es : list Event) (s : State) :
  play L WORDS VALID_GUESSES draws es = Some s -> reachable L WORDS VALID_GUESSES s.
Proof.
  unfold play. destruct (mount L WORDS VALID_GUESSES draws) as [s0 |] eqn:Hmount; [| done].
  simpl. unfold run. apply reachable_run. intros s1 [= <-]. by eapply reachable_mount.
Qed.

Ltac by_computation :=
  match goal with
  | |- ?P => apply (bool_decide_unpack P); vm_compute; exact I
  end.

Ltac demo_reachable es :=
  apply (reachable_play 5 demo_words demo_valid [0] es); vm_compute; reflexivity.

Lemma demo_typed_reachable : reachable 5 demo_words demo_valid demo_typed.
Proof. demo_reachable (type_word "TERMO"). Qed.

Lemma demo_level1_reachable : reachable 5 demo_words demo_valid demo_level1.
Proof. demo_reachable to_level1. Qed.

Lemma demo_full_reachable : reachable 5 demo_words demo_valid demo_full.
Proof. demo_reachable (to_level1 ++ type_word "CASAS"). Qed.

Lemma demo_hinted_reachable : reachable 5 demo_words demo_valid demo_hinted.
Proof. demo_reachable (to_level1 ++ [HintRequest 0] ++ type_word "PORTA"). Qed.

Lemma demo_again_reachable : reachable 5 demo_words demo_valid demo_again.
Proof.
  demo_reachable (to_level1 ++ type_word "TERMO" ++ [KeyDown "ENTER"] ++ type_word "TERMO").
Qed.

Example demo_level1_state :
  (level demo_level1, score demo_level1, hintCost demo_level1, solutions demo_level1,
   solvedIndices demo_level1, currentGuess demo_level1, gameStatus demo_level1)
  = (1, 100%Z, 5%Z, ["TERMO"; "CASAS"], [false; false], [""; ""; ""; ""; ""], playing).
Proof. vm_compute. reflexivity. Qed.

Lemma demo_wf (s : State) :
  reachable 5 demo_words demo_valid s -> wf 5 s.
Proof. apply reachable_wf. lia. Qed.

Lemma accepted_solve_awards_points_witness :
  solvedIndices (onKeyDown 5 "ENTER" demo_typed) !! 0 = Some true ∧
  score (onKeyDown 5 "ENTER" demo_typed) = 100%Z.
Proof.
  destruct (accepted_solve_awards_points 5 demo_typed "TERMO" 0) as (Hsolved & _ & _ & H100 & _).
  - apply demo_wf, demo_typed_reachable.
  - unfold accepted. split_and!; by_computation.
  - reflexivity.
  - reflexivity.
  - split; [exact Hsolved |]. apply H100. reflexivity.
Defined.

Lemma status_follows_solved_mask_witness :
  gameStatus (onKeyDown 5 "ENTER" demo_typed) = won.
Proof.
  destruct (status_follows_solved_mask 5 demo_words demo_valid demo_typed ltac:(lia)
              demo_typed_reachable) as (_ & _ & Hnext).
  rewrite (Hnext "TERMO").
  - reflexivity.
  - unfold accepted. split_and!; by_computation.
Defined.

Lemma hints_after_accepted_submission_witness :
  hintedSolutionIndex (onKeyDown 5 "ENTER" demo_hinted) = Some 0 ∧
  currentGuess (onKeyDown 5 "ENTER" demo_hinted) !! 0 = Some "T" ∧
  currentGuess (onKeyDown 5 "ENTER" demo_hinted) !! 1 = Some "".
Proof.
  destruct (hints_after_accepted_submission 5 demo_hinted "PORTA") as [_ Hkeep].
  - apply demo_wf, demo_hinted_reachable.
  - unfold accepted. split_and!; by_computation.
  - destruct Hkeep as (Htarget & _ & _ & Hslots).
    + intros h. vm_compute. intros Hh. injection Hh as <-. discriminate.
    + split; [rewrite Htarget; reflexivity |].
      split; [rewrite (Hslots 0) by lia | rewrite (Hslots 1) by lia]; reflexivity.
Defined.

Lemma repeated_word_is_accepted_witness :
  "TERMO" ∈ guesses demo_again ∧
  guesses (onKeyDown 5 "ENTER" demo_again) = ["TERMO"; "TERMO"] ∧
  score (onKeyDown 5 "ENTER" demo_again) = score demo_again.
Proof.
  destruct (repeated_word_is_accepted 5 demo_again "TERMO") as (Hguesses & _ & Hscore & _).
  - apply demo_wf, demo_again_reachable.
  - unfold accepted. split_and!; by_computation.
  - split; [by_computation |]. split; [rewrite Hguesses; reflexivity |].
    apply Hscore. intros i. vm_compute.
    destruct i as [| [| i]]; intros Hi; [reflexivity | discriminate Hi | discriminate Hi].
Defined.

Lemma rejected_actions_keep_game_witness :
  same_game demo_level1 (onKeyDown 5 "ENTER" demo_level1) ∧
  ∃ s', handleHint 5 0 demo_full = Some s' ∧ same_board demo_full s' ∧
        ∃ cur, hintedSolutionIndex s' = Some cur.
Proof.
  split.
  - destruct (rejected_actions_keep_game 5 demo_level1) as (Hinc & _).
    + apply demo_wf, demo_level1_reachable.
    + reflexivity.
    + apply Hinc. by_computation.
  - destruct (rejected_actions_keep_game 5 demo_full) as (_ & _ & _ & Hslot).
    + apply demo_wf, demo_full_reachable.
    + reflexivity.
    + destruct (Hslot 0) as (s' & Hs' & Hsame & _ & Hset & _).
      * vm_compute. discriminate.
      * reflexivity.
      * destruct (Hset eq_refl) as (cur & _ & Hcur).
        exists s'. split; [exact Hs' |]. split; [exact Hsame |]. by exists cur.
Defined.

(** C6, as stated, fails: with a full row and no hint target yet, the hint
    request is turned down for want of a free slot, and the hint target has
    been set to board 0 all the same. *)
Lemma rejected_hint_sets_target :
  gameStatus demo_full = playing ∧
  availableIndices (currentGuess demo_full) (revealedHints demo_full) = [] ∧
  hintedSolutionIndex demo_full = None ∧
  ∃ s', handleHint 5 0 demo_full = Some s' ∧
        toast s' = Some ToastNoFreeSlot ∧
        hintedSolutionIndex s' = Some 0 ∧
        ¬ same_game demo_full s'.
Proof.
  split_and!; [reflexivity | reflexivity | reflexivity |].
  eexists. split; [vm_compute; reflexivity |].
  split_and!; [reflexivity | reflexivity |].
  unfold same_game. vm_compute.
  intros (_ & _ & _ & _ & _ & _ & _ & _ & _ & _ & Htarget & _). discriminate Htarget.
Qed.

Lemma hint_is_paid_unless_refused_witness :
  ∃ s', handleHint 5 0 demo_level1 = Some s' ∧
        score s' = 95%Z ∧ hintCost s' = 10%Z.
Proof.
  destruct (hint_is_paid_unless_refused 5 0 demo_level1) as (s' & Hs' & _ & Hpaid).
  - apply demo_wf, demo_level1_reachable.
  - reflexivity.
  - exists s'. split; [exact Hs' |].
    destruct Hpaid as (_ & _ & Hfive & _).
    + unfold hint_refused. vm_compute.
      intros [Hlow | Hnone]; [discriminate Hlow | discriminate Hnone].
    + apply Hfive. reflexivity.
Defined.

(** C8 fails on the code: at level 1 with an empty row and the cursor on
    slot 0, the hint reveals the T of TERMO in slot 0, the cursor's slot;
    slot 1 is the next empty one, and the cursor is still on slot 0. *)
Theorem hint_leaves_cursor_on_revealed_slot :
  activeTileIndex demo_level1 = 0 ∧
  handleHint 5 0 demo_level1 = Some (revealed_state demo_level1 0 0 "T") ∧
  currentGuess (revealed_state demo_level1 0 0 "T") = ["T"; ""; ""; ""; ""] ∧
  activeTileIndex (revealed_state demo_level1 0 0 "T") = 0.
Proof. split_and!; vm_compute; reflexivity. Qed.

(** *** A vocabulary that is too small *)

Lemma all_Some_fmap {A : Type} (l : list (option A)) :
  Forall is_Some l -> l = Some <$> omap id l.
Proof.
  induction 1 as [| o l [x ->] _ IH]; [done |]. simpl. f_equal. exact IH.
Qed.

(** With fewer distinct words than boards the loop of [initGame] does not
    end, whatever the draws. *)
Lemma select_loop_exhausted (validWords : list string) (n : nat) (draws : list nat) :
  validWords ≠ [] ->
  size (list_to_set validWords : gset string) < n ->
  select_loop validWords n draws [] = None.
Proof.
  intros Hne Hsize. destruct (select_loop validWords n draws []) as [res |] eqn:Hres; [| done].
  exfalso. apply select_loop_sound in Hres as (Hlen & Hnd & Hfrom);
    [| simpl; lia | apply NoDup_nil_2].
  assert (Hall : Forall (fun o => ∃ w, o = Some w ∧ w ∈ validWords) res).
  { apply Forall_forall. intros o Ho. apply Hfrom in Ho as [Ho | [r ->]].
    - by apply elem_of_nil in Ho.
    - destruct (lookup_lt_is_Some_2 validWords (JS.random_index r (length validWords)))
        as [w Hw].
      + apply random_index_lt. destruct validWords; [done | simpl; lia].
      + exists w. split; [done |]. by eapply list_elem_of_lookup_2. }
  assert (Hres : res = Some <$> omap id res).
  { apply all_Some_fmap. eapply Forall_impl; [exact Hall |]. intros o (w & -> & _). by eexists. }
  set (ws := omap id res) in *.
  assert (Hws : NoDup ws).
  { rewrite Hres in Hnd. by apply (NoDup_fmap Some). }
  assert (Hsub : (list_to_set ws : gset string) ⊆ list_to_set validWords).
  { intros w Hw. apply elem_of_list_to_set in Hw. apply elem_of_list_to_set.
    assert (Hin : Some w ∈ res).
    { rewrite Hres. apply list_elem_of_fmap. by exists w. }
    rewrite Forall_forall in Hall. destruct (Hall _ Hin) as (w' & [= <-] & Hw'). done. }
  apply subseteq_size in Hsub. rewrite size_list_to_set in Hsub by done.
  rewrite Hres, length_fmap in Hlen. lia.
Qed.

(** C4 fails on the code: with one playable word (TERMO) in the word list,
    the selection for level 1, which has two boards, comes back on no sequence
    of draws, and [initGame] with it; no failure is raised. *)
Theorem initGame_hangs_on_exhausted_pool (draws : list nat) (s : State) :
  select_solutions 5 ["TERMO"; "CASA"; "AB CD"] 1 draws = None ∧
  initGame 5 ["TERMO"; "CASA"; "AB CD"] 1 draws s = None.
Proof.
  assert (H : select_solutions 5 ["TERMO"; "CASA"; "AB CD"] 1 draws = None).
  { unfold select_solutions. apply select_loop_exhausted.
    - vm_compute. discriminate.
    - vm_compute. lia. }
  split; [exact H |]. unfold initGame. by rewrite H.
Qed.

(** The same word list serves level 0: one draw is enough. *)
Example select_solutions_level0 :
  select_solutions 5 ["TERMO"; "CASA"; "AB CD"] 0 [7] = Some [Some "TERMO"].
Proof. vm_compute. reflexivity. Qed.

(** * More of the component *)

(** ** The scorer *)

Lemma sparse_get_fmap {A : Type} (l : list A) (i : nat) :
  JS.sparse_get (Some <$> l) i = l !! i.
Proof. unfold JS.sparse_get. rewrite list_lookup_fmap. by destruct (l !! i). Qed.

Lemma presence_length (g sol : list ascii) (ps : list nat) (c : gset nat) :
  length (Reference.presence g sol ps c) = length ps.
Proof.
  revert c. induction ps as [| i ps IH]; intros c; simpl; [done |].
  destruct (Reference.exact g sol i); simpl; [by rewrite IH |].
  destruct (g !! i ≫= Reference.lowest_unconsumed sol c); simpl; by rewrite IH.
Qed.

Lemma presence_correct (g sol : list ascii) (ps : list nat) (c : gset nat) (k : nat) :
  Reference.presence g sol ps c !! k = Some correct
  <-> ∃ i, ps !! k = Some i ∧ Reference.exact g sol i = true.
Proof.
  revert c k. induction ps as [| i ps IH]; intros c k; simpl.
  - split; [done |]. by intros (i & Hi & _).
  - destruct (Reference.exact g sol i) eqn:Hex.
    + destruct k as [| k]; simpl; [| apply IH]. split; [| done]. intros _. by exists i.
    + destruct (g !! i ≫= Reference.lowest_unconsumed sol c);
        (destruct k as [| k]; simpl; [| apply IH]);
        (split; [done |]); intros (i' & [= <-] & Hi'); congruence.
Qed.

Lemma presence_foreign (g sol : list ascii) (ps : list nat) (c : gset nat)
    (k i : nat) (x : ascii) :
  ps !! k = Some i -> g !! i = Some x -> x ∉ sol ->
  Reference.presence g sol ps c !! k = Some absent.
Proof.
  intros Hk Hg Hx. revert c k Hk. induction ps as [| i0 ps IH]; intros c k Hk; [done |].
  simpl. destruct k as [| k]; simpl in Hk.
  - injection Hk as ->. unfold Reference.exact. rewrite Hg.
    assert (Hno : Reference.lowest_unconsumed sol c x = None).
    { unfold Reference.lowest_unconsumed. rewrite filter_none; [done |].
      intros j _ [Hj _]. apply Hx. by eapply list_elem_of_lookup_2. }
    destruct (sol !! i) as [y |] eqn:Hy.
    + rewrite bool_decide_eq_false_2.
      * simpl. by rewrite Hno.
      * intros ->. apply Hx. by eapply list_elem_of_lookup_2.
    + simpl. by rewrite Hno.
  - destruct (Reference.exact g sol i0); simpl; [by apply IH |].
    destruct (g !! i0 ≫= Reference.lowest_unconsumed sol c); simpl; by apply IH.
Qed.

Lemma exact_same (g : list ascii) (i : nat) :
  i < length g -> Reference.exact g g i = true.
Proof.
  intros Hi. unfold Reference.exact. destruct (lookup_lt_is_Some_2 g i Hi) as [x ->].
  by apply bool_decide_eq_true.
Qed.

Lemma exact_iff (g sol : list ascii) (i : nat) :
  Reference.exact g sol i = true <-> ∃ c, g !! i = Some c ∧ sol !! i = Some c.
Proof.
  unfold Reference.exact. destruct (g !! i) as [x |]; [| split; [done | by intros (c & ? & _)]].
  destruct (sol !! i) as [y |]; [| split; [done | by intros (c & _ & ?)]].
  rewrite bool_decide_eq_true. split.
  - intros ->. by exists y.
  - intros (c & [= ->] & [= ->]). done.
Qed.

Lemma getGuessStatuses_presence (L : nat) (guess solution : string) :
  String.length guess = L ->
  getGuessStatuses L guess solution
  = Some <$> Reference.presence (JS.split guess) (JS.split solution) (seq 0 L)
               (consumed0 (JS.split guess) (JS.split solution)).
Proof.
  intros Hg. unfold getGuessStatuses.
  assert (Hl : length (JS.split guess) = L) by by rewrite split_length.
  by rewrite (scorer_passes_reference L (JS.split guess) (JS.split solution) Hl).
Qed.

(** X1: a guess that is the solution is marked correct in every position. *)
Theorem getGuessStatuses_solution (L : nat) (w : string) :
  String.length w = L ->
  getGuessStatuses L w w = replicate L (Some correct).
Proof.
  intros Hw. rewrite getGuessStatuses_presence by done.
  assert (Hl : length (JS.split w) = L) by by rewrite split_length.
  apply list_eq. intros k. rewrite list_lookup_fmap.
  destruct (decide (k < L)) as [Hk | Hk].
  - rewrite lookup_replicate_2 by done.
    assert (H : Reference.presence (JS.split w) (JS.split w) (seq 0 L)
                  (consumed0 (JS.split w) (JS.split w)) !! k = Some correct).
    { apply presence_correct. exists k. split; [by apply lookup_seq_lt |].
      apply exact_same. lia. }
    by rewrite H.
  - rewrite (lookup_ge_None_2 (replicate _ _)) by (rewrite length_replicate; lia).
    rewrite lookup_ge_None_2; [done |]. rewrite presence_length, length_seq. lia.
Qed.

Lemma getGuessStatuses_solution_witness :
  getGuessStatuses 5 "TERMO" "TERMO" = replicate 5 (Some correct).
Proof. apply (getGuessStatuses_solution 5 "TERMO"). reflexivity. Defined.

(** X2: a position is marked correct exactly when guess and solution hold the
    same letter there. *)
Theorem correct_iff_same_letter (L : nat) (guess solution : string) (i : nat) :
  String.length guess = L ->
  JS.sparse_get (getGuessStatuses L guess solution) i = Some correct
  <-> ∃ c, JS.split guess !! i = Some c ∧ JS.split solution !! i = Some c.
Proof.
  intros Hg. rewrite getGuessStatuses_presence by done.
  rewrite sparse_get_fmap, presence_correct. split.
  - intros (i' & Hi' & Hex). apply lookup_seq in Hi' as [-> _]. by apply exact_iff.
  - intros Hc. exists i. split; [| by apply exact_iff].
    apply lookup_seq. split; [done |]. destruct Hc as (c & Hc & _).
    apply lookup_lt_Some in Hc. by rewrite split_length, Hg in Hc.
Qed.

Lemma correct_iff_same_letter_witness :
  JS.sparse_get (getGuessStatuses 5 "SPEED" "ERASE") 2 = Some correct
  <-> ∃ c, JS.split "SPEED" !! 2 = Some c ∧ JS.split "ERASE" !! 2 = Some c.
Proof. apply (correct_iff_same_letter 5 "SPEED" "ERASE" 2). reflexivity. Defined.

(** X3: a letter of the guess that does not occur in the solution is marked
    absent. *)
Theorem foreign_letter_is_absent (L : nat) (guess solution : string) (i : nat) (x : ascii) :
  String.length guess = L ->
  JS.split guess !! i = Some x ->
  x ∉ JS.split solution ->
  JS.sparse_get (getGuessStatuses L guess solution) i = Some absent.
Proof.
  intros Hg Hi Hx. rewrite getGuessStatuses_presence by done. rewrite sparse_get_fmap.
  apply (presence_foreign _ _ _ _ i i x); [| done | done].
  apply lookup_seq. split; [done |]. apply lookup_lt_Some in Hi.
  by rewrite split_length, Hg in Hi.
Qed.

Lemma foreign_letter_is_absent_witness :
  JS.sparse_get (getGuessStatuses 5 "SPEED" "ERASE") 1 = Some absent.
Proof.
  apply (foreign_letter_is_absent 5 "SPEED" "ERASE" 1 "P"%char); [reflexivity | reflexivity |].
  by_computation.
Defined.

Lemma filter_length_insert {A : Type} (P : A -> Prop) `{!forall x, Decision (P x)}
    (l : list A) (i : nat) (x y : A) :
  l !! i = Some x ->
  length (filter P (<[i := y]> l)) + (if decide (P x) then 1 else 0)
  = length (filter P l) + (if decide (P y) then 1 else 0).
Proof.
  revert i. induction l as [| a l IH]; intros i Hi; [done |].
  destruct i as [| i]; simpl in *.
  - injection Hi as ->. rewrite !filter_cons.
    destruct (decide (P x)), (decide (P y)); simpl; lia.
  - rewrite !filter_cons. specialize (IH i Hi).
    destruct (decide (P a)); simpl; lia.
Qed.

Lemma taken_count_le (c : ascii) (taken : list bool) (solution : list ascii) :
  taken_count c taken solution ≤ length (filter (fun y => y = c) solution).
Proof.
  unfold taken_count. revert solution.
  induction taken as [| b taken IH]; intros [| y solution]; simpl; try lia.
  rewrite !filter_cons. specialize (IH solution). simpl.
  destruct (decide (b = true ∧ y = c)) as [[_ ->] | Hn].
  - rewrite decide_True by done. simpl. lia.
  - destruct (decide (y = c)); simpl; lia.
Qed.

Section ScorerCredits.

Variable WORD_LENGTH : nat.
Variables g sol : list ascii.
Variable c : ascii.
Hypothesis guess_length : length g = WORD_LENGTH.

(** Marking position [i], so far absent, with [v]. *)
Lemma credited_mark (statuses : list (option CharStatus)) (i : nat) (x : ascii)
    (v : CharStatus) :
  g !! i = Some x -> statuses !! i = Some (Some absent) ->
  v = correct ∨ v = present ->
  credited c g (<[i := Some v]> statuses)
  = credited c g statuses + (if decide (x = c) then 1 else 0).
Proof.
  intros Hg Hs Hv. unfold credited.
  assert (Hzip : zip g (<[i := Some v]> statuses) = <[i := (x, Some v)]> (zip g statuses)).
  { rewrite (insert_zip_with pair g statuses i x (Some v)).
    by rewrite (list_insert_id g i x Hg). }
  rewrite Hzip.
  assert (Hlook : zip g statuses !! i = Some (x, Some absent)).
  { rewrite lookup_zip_with, Hg. simpl. by rewrite Hs. }
  pose proof (filter_length_insert
                (fun p : ascii * option CharStatus =>
                   p.1 = c ∧ (p.2 = Some correct ∨ p.2 = Some present))
                (zip g statuses) i (x, Some absent) (x, Some v) Hlook) as H.
  rewrite decide_False in H by (simpl; intros [_ [? | ?]]; done).
  rewrite Nat.add_0_r in H. rewrite H.
  destruct (decide (x = c)) as [-> | Hne].
  - rewrite decide_True; [lia |]. simpl. split; [done |]. destruct Hv as [-> | ->]; auto.
  - rewrite decide_False; [lia |]. simpl. by intros [? _].
Qed.

(** Taking position [j], so far free. *)
Lemma taken_mark (taken : list bool) (j : nat) (x : ascii) :
  sol !! j = Some x -> taken !! j = Some false ->
  taken_count c (<[j := true]> taken) sol
  = taken_count c taken sol + (if decide (x = c) then 1 else 0).
Proof.
  intros Hs Ht. unfold taken_count.
  assert (Hzip : zip (<[j := true]> taken) sol = <[j := (true, x)]> (zip taken sol)).
  { rewrite (insert_zip_with pair taken sol j true x).
    by rewrite (list_insert_id sol j x Hs). }
  rewrite Hzip.
  assert (Hlook : zip taken sol !! j = Some (false, x)).
  { rewrite lookup_zip_with, Ht. simpl. by rewrite Hs. }
  pose proof (filter_length_insert
                (fun p : bool * ascii => p.1 = true ∧ p.2 = c)
                (zip taken sol) j (false, x) (true, x) Hlook) as H.
  rewrite decide_False in H by (simpl; intros [? _]; done).
  rewrite Nat.add_0_r in H. rewrite H.
  destruct (decide (x = c)) as [-> | Hne].
  - rewrite decide_True; [lia | done].
  - rewrite decide_False; [lia |]. simpl. by intros [_ ?].
Qed.

Lemma balanced_init :
  balanced c g sol (replicate WORD_LENGTH (Some absent), map (fun _ => false) sol).
Proof.
  unfold balanced, credited, taken_count. simpl. rewrite !filter_none; [done | |].
  - intros [b y] Hin [Hb _]. simpl in *. subst.
    apply elem_of_zip_l, list_elem_of_fmap in Hin as (? & ? & _). done.
  - intros [y o] Hin [_ Ho]. simpl in *.
    apply elem_of_zip_r, elem_of_replicate in Hin as [-> _]. by destruct Ho.
Qed.

Lemma balanced_green (i : nat) (x : ascii) (st : scorer_state) :
  g !! i = Some x -> green_inv WORD_LENGTH g sol i st -> balanced c g sol st ->
  balanced c g sol (green_step sol st x i).
Proof.
  intros Hg (Hl1 & Hl2 & Hst & Htk) Hbal. destruct st as [statuses taken].
  unfold balanced in *. simpl in *.
  pose proof (lookup_lt_Some _ _ _ Hg) as Hi. rewrite guess_length in Hi.
  unfold green_step. case_decide as Hs; [| done]. simpl.
  pose proof (lookup_lt_Some _ _ _ Hs) as Hi'.
  rewrite sparse_set_in_range by lia.
  rewrite (credited_mark statuses i x correct Hg); [| | by left].
  - rewrite (taken_mark taken i x Hs); [lia |].
    rewrite Htk by done. by rewrite bool_decide_eq_false_2 by lia.
  - rewrite Hst by done. by rewrite bool_decide_eq_false_2 by lia.
Qed.

Lemma balanced_yellow (i : nat) (x : ascii) (st : scorer_state) :
  g !! i = Some x -> yellow_inv WORD_LENGTH g sol i st -> balanced c g sol st ->
  balanced c g sol (yellow_step sol st x i).
Proof.
  intros Hg (Hl1 & Hl2 & out & cs & _ & _ & _ & _ & Htodo) Hbal.
  destruct st as [statuses taken]. unfold balanced in *. simpl in *.
  pose proof (lookup_lt_Some _ _ _ Hg) as Hi. rewrite guess_length in Hi.
  pose proof (Htodo i ltac:(lia)) as Hsi.
  unfold yellow_step, JS.sparse_get. rewrite Hsi. simpl.
  destruct (Reference.exact g sol i); [by rewrite decide_True |].
  rewrite decide_False by done.
  destruct (JS.findIndex _ sol) as [j |] eqn:Hfind; [| done]. simpl.
  unfold JS.findIndex in Hfind. apply findIndex_from_Some in Hfind as (_ & (y & Hy & Hp) & _).
  rewrite Nat.sub_0_r in Hy. apply andb_true_iff in Hp as [Hyx Hfree].
  apply bool_decide_eq_true in Hyx as ->. apply negb_true_iff in Hfree.
  pose proof (lookup_lt_Some _ _ _ Hy) as Hj.
  rewrite sparse_set_in_range by lia.
  rewrite (credited_mark statuses i x present Hg Hsi); [| by right].
  rewrite (taken_mark taken j x Hy); [lia |].
  unfold JS.truthy_at in Hfree.
  destruct (lookup_lt_is_Some_2 taken j ltac:(lia)) as [b Hb]. rewrite Hb in *. by subst.
Qed.

Lemma scorer_balanced :
  balanced c g sol
    (JS.forEach (yellow_step sol) g
       (JS.forEach (green_step sol) g
          (replicate WORD_LENGTH (Some absent), map (fun _ => false) sol))).
Proof.
  assert (H1 : green_inv WORD_LENGTH g sol (length g)
                 (JS.forEach (green_step sol) g
                    (replicate WORD_LENGTH (Some absent), map (fun _ => false) sol)) ∧
               balanced c g sol
                 (JS.forEach (green_step sol) g
                    (replicate WORD_LENGTH (Some absent), map (fun _ => false) sol))).
  { apply (forEach_inv (fun k st => green_inv WORD_LENGTH g sol k st ∧ balanced c g sol st)).
    - split; [apply green_inv_init | apply balanced_init].
    - intros i x st Hx [Hinv Hbal]. split.
      + by apply green_inv_step.
      + by apply balanced_green. }
  destruct H1 as [Hgreen Hbal]. rewrite guess_length in Hgreen.
  apply yellow_inv_init in Hgreen; [| done].
  apply (forEach_inv (fun k st => yellow_inv WORD_LENGTH g sol k st ∧ balanced c g sol st)).
  - done.
  - intros i x st Hx [Hinv Hb]. split.
    + by apply yellow_inv_step.
    + by apply balanced_yellow.
Qed.

End ScorerCredits.

(** X4: every letter is credited (marked correct or present) at most as often
    as it occurs in the solution. *)
Theorem letter_credited_at_most_once (L : nat) (guess solution : string) (c : ascii) :
  String.length guess = L ->
  credited c (JS.split guess) (getGuessStatuses L guess solution)
  ≤ length (filter (fun y => y = c) (JS.split solution)).
Proof.
  intros Hg. assert (Hl : length (JS.split guess) = L) by by rewrite split_length.
  pose proof (scorer_balanced L (JS.split guess) (JS.split solution) c Hl) as Hbal.
  unfold balanced in Hbal. unfold getGuessStatuses. rewrite Hbal. apply taken_count_le.
Qed.

Lemma letter_credited_at_most_once_witness :
  credited "E" (JS.split "SPEED") (getGuessStatuses 5 "SPEED" "ERASE")
  ≤ length (filter (fun y => y = "E"%char) (JS.split "ERASE")).
Proof. apply (letter_credited_at_most_once 5 "SPEED" "ERASE"). reflexivity. Defined.

(** X5: for a guess of at most WORD_LENGTH letters the scorer returns
    WORD_LENGTH statuses, each of them correct, present or absent, and absent
    past the end of the guess. *)
Theorem getGuessStatuses_shape (L : nat) (guess solution : string) :
  String.length guess ≤ L ->
  length (getGuessStatuses L guess solution) = L ∧
  (forall i, i < L ->
     ∃ st, getGuessStatuses L guess solution !! i = Some (Some st) ∧ st ≠ initial) ∧
  (forall i, String.length guess ≤ i -> i < L ->
     getGuessStatuses L guess solution !! i = Some (Some absent)).
Proof.
  intros Hg. rewrite <- split_length in Hg.
  set (P := fun (_ : nat) (st : scorer_state) =>
              length st.1 = L ∧ Forall is_Some st.1 ∧
              forall i, length (JS.split guess) ≤ i -> i < L ->
                        st.1 !! i = Some (Some absent)).
  assert (Hset : forall k v (statuses : list (option CharStatus)) (tk tk' : list bool),
             k < length (JS.split guess) -> P k (statuses, tk) ->
             P (S k) (JS.sparse_set k v statuses, tk')).
  { intros k v statuses tk tk' Hk (Hlen & Hall & Hpast). unfold P. simpl in *.
    rewrite sparse_set_in_range by lia. rewrite length_insert. split_and!; [done | |].
    - apply Forall_insert; [done | by eexists].
    - intros i Hi HiL. rewrite list_lookup_insert_ne by lia. by apply Hpast. }
  assert (H1 : P (length (JS.split guess))
                 (JS.forEach (green_step (JS.split solution)) (JS.split guess)
                    (replicate L (Some absent), map (fun _ => false) (JS.split solution)))).
  { apply (forEach_inv P).
    - unfold P. simpl. rewrite length_replicate. split_and!; [done | |].
      + apply Forall_replicate. by eexists.
      + intros i _ Hi. by apply lookup_replicate_2.
    - intros k x [st tk] Hx Hs. apply lookup_lt_Some in Hx.
      unfold green_step. case_decide; [| exact Hs]. by apply (Hset k correct st tk). }
  assert (H2 : P (length (JS.split guess))
                 (JS.forEach (yellow_step (JS.split solution)) (JS.split guess)
                    (JS.forEach (green_step (JS.split solution)) (JS.split guess)
                       (replicate L (Some absent),
                        map (fun _ => false) (JS.split solution))))).
  { apply (forEach_inv P); [exact H1 |].
    intros k x [st tk] Hx Hs. apply lookup_lt_Some in Hx.
    unfold yellow_step. case_decide; [exact Hs |].
    destruct (JS.findIndex _ _); [| exact Hs]. by apply (Hset k present st tk). }
  destruct H2 as (Hlen & Hall & Hpast). unfold getGuessStatuses.
  split_and!; [done | |].
  2: { intros i Hi1 Hi2. apply Hpast; [by rewrite split_length | done]. }
  intros i Hi. destruct (lookup_lt_is_Some_2 _ i ltac:(rewrite Hlen; exact Hi)) as [o Ho].
  pose proof (Forall_lookup_1 _ _ _ _ Hall Ho) as [st ->].
  exists st. split; [exact Ho |]. intros ->.
  apply (getGuessStatuses_not_initial L guess solution i).
  unfold JS.sparse_get, getGuessStatuses. by rewrite Ho.
Qed.

Lemma getGuessStatuses_shape_witness :
  length (getGuessStatuses 5 "SPA" "ERASE") = 5 ∧
  getGuessStatuses 5 "SPA" "ERASE" !! 4 = Some (Some absent).
Proof.
  destruct (getGuessStatuses_shape 5 "SPA" "ERASE") as (Hlen & _ & Hpast).
  - simpl. lia.
  - split; [exact Hlen |]. apply Hpast; simpl; lia.
Defined.

(** ** The keyboard *)

Lemma evidence_unsolved (L : nat) (guesses solutions : list string)
    (solvedIndices : list bool) (c : ascii) (st : CharStatus) :
  evidence L guesses solutions solvedIndices c st ->
  ∃ solIndex, solIndex < length solutions ∧ JS.truthy_at solvedIndices solIndex = false.
Proof.
  intros (guess & sol & j & i & _ & Hsol & Hsolved & _). exists j.
  split; [by eapply lookup_lt_Some | done].
Qed.

Lemma keyStatuses_best (L : nat) (guesses solutions : list string)
    (solvedIndices : list bool) :
  best_of (evidence L guesses solutions solvedIndices)
          (getKeyStatuses L guesses solutions solvedIndices).
Proof.
  apply (best_of_ext (seen_guesses L guesses solutions solvedIndices (length guesses))).
  - apply seen_guesses_evidence.
  - apply guesses_best.
Qed.

(** X6: once every board is solved the keyboard map is empty, whatever was
    guessed. *)
Theorem getKeyStatuses_all_solved (L : nat) (guesses solutions : list string)
    (solvedIndices : list bool) :
  (forall solIndex, solIndex < length solutions ->
     JS.truthy_at solvedIndices solIndex = true) ->
  getKeyStatuses L guesses solutions solvedIndices = ∅.
Proof.
  intros Hall. apply map_eq. intros c. rewrite lookup_empty.
  pose proof (keyStatuses_best L guesses solutions solvedIndices c) as Hc.
  destruct (getKeyStatuses L guesses solutions solvedIndices !! c) as [st |]; [| done].
  destruct Hc as [Hev _]. apply evidence_unsolved in Hev as (j & Hj & Hfalse).
  rewrite Hall in Hfalse by done. done.
Qed.

Lemma getKeyStatuses_all_solved_witness :
  getKeyStatuses 5 ["SPEED"; "TERMO"; "CASAS"] ["TERMO"; "CASAS"] [true; true] = ∅.
Proof.
  apply (getKeyStatuses_all_solved 5).
  intros [| [| j]] Hj; [reflexivity | reflexivity | simpl in Hj; lia].
Defined.

(** X7: with the solved mask fixed, further guesses never lower the priority
    of a letter's entry in the keyboard map. *)
Theorem getKeyStatuses_more_guesses (L : nat) (guesses more solutions : list string)
    (solvedIndices : list bool) (c : ascii) :
  entry_priority (getKeyStatuses L guesses solutions solvedIndices !! c)
  ≤ entry_priority (getKeyStatuses L (guesses ++ more) solutions solvedIndices !! c).
Proof.
  pose proof (keyStatuses_best L guesses solutions solvedIndices c) as H1.
  pose proof (keyStatuses_best L (guesses ++ more) solutions solvedIndices c) as H2.
  destruct (getKeyStatuses L guesses solutions solvedIndices !! c) as [st |];
    [| simpl; lia].
  destruct H1 as [Hev _].
  assert (Hev' : evidence L (guesses ++ more) solutions solvedIndices c st).
  { destruct Hev as (guess & sol & j & i & Hg & Hrest).
    exists guess, sol, j, i. split; [| done]. apply elem_of_app. by left. }
  destruct (getKeyStatuses L (guesses ++ more) solutions solvedIndices !! c) as [st' |].
  - simpl. by apply H2.
  - by apply (H2 st) in Hev'.
Qed.

(** ** The selection loop of initGame *)

Lemma select_loop_stuck (validWords : list string) (n : nat) (draws : list nat)
    (acc : list (option string)) :
  length acc < n ->
  (forall r, validWords !! JS.random_index r (length validWords) ∈ acc) ->
  select_loop validWords n draws acc = None.
Proof.
  intros Hlen Hin. induction draws as [| r draws IH]; rewrite select_loop_unfold.
  - by rewrite decide_True.
  - rewrite decide_True by done. simpl. by rewrite decide_True.
Qed.

(** X8: on draws that hit level + 1 distinct entries of the filtered word
    list, the selection of initGame ends, with exactly level + 1 pairwise
    distinct entries; each word among them is a word of WORDS of WORD_LENGTH
    letters without a space. *)
Theorem select_solutions_result (L : nat) (WORDS : list string) (lvl : nat)
    (draws : list nat) :
  let validWords := filter (fun w => playable L w = true) WORDS in
  lvl + 1 ≤ size (list_to_set
                    ((fun r => validWords !! JS.random_index r (length validWords))
                       <$> draws) : gset (option string)) ->
  ∃ res, select_solutions L WORDS lvl draws = Some res ∧
         length res = lvl + 1 ∧ NoDup res ∧
         forall w, Some w ∈ res ->
           w ∈ WORDS ∧ String.length w = L ∧ JS.includes_space w = false.
Proof.
  intros validWords Hhits. unfold select_solutions. fold validWords.
  destruct (select_loop_returns validWords (numWords lvl) draws []) as [res Hres].
  { apply NoDup_nil_2. }
  { exact Hhits. }
  exists res. split; [exact Hres |].
  apply select_loop_sound in Hres as (Hlen & Hnd & Hfrom); [| simpl; lia | apply NoDup_nil_2].
  split; [exact Hlen |]. split; [exact Hnd |].
  intros w Hw. apply Hfrom in Hw as [Hw | [r Hw]]; [by apply elem_of_nil in Hw |].
  symmetry in Hw. apply list_elem_of_lookup_2, list_elem_of_filter in Hw as [Hp Hw].
  unfold playable in Hp. apply andb_true_iff in Hp as [Hlen' Hsp].
  apply bool_decide_eq_true in Hlen'. apply negb_true_iff in Hsp. done.
Qed.

Lemma select_solutions_result_witness :
  ∃ res, select_solutions 5 demo_words 1 [0; 0; 1] = Some res ∧ length res = 2.
Proof.
  destruct (select_solutions_result 5 demo_words 1 [0; 0; 1]) as (res & Hres & Hlen & _).
  - by_computation.
  - exists res. split; [exact Hres | exact Hlen].
Defined.

(** X9: when WORDS has no playable word, the selection at level 0 ends at the
    first draw with one undefined entry, and at any higher level it does not
    end. *)
Theorem select_solutions_empty_pool (L : nat) (WORDS : list string) :
  filter (fun w => playable L w = true) WORDS = [] ->
  (forall r draws, select_solutions L WORDS 0 (r :: draws) = Some [None]) ∧
  (forall lvl draws, 0 < lvl -> select_solutions L WORDS lvl draws = None).
Proof.
  intros Hempty. unfold select_solutions. rewrite Hempty. split.
  - intros r draws. rewrite select_loop_unfold. simpl.
    by rewrite select_loop_unfold.
  - intros lvl draws Hlvl. destruct draws as [| r draws].
    + rewrite select_loop_unfold. rewrite decide_True; [done |]. unfold numWords. simpl. lia.
    + rewrite select_loop_unfold. rewrite decide_True by (unfold numWords; simpl; lia).
      cbn zeta. rewrite decide_False by (intros H; by apply elem_of_nil in H).
      apply select_loop_stuck.
      * unfold numWords. simpl. lia.
      * intros r'. simpl. apply list_elem_of_singleton. done.
Qed.

Lemma select_solutions_empty_pool_witness :
  select_solutions 5 ["CASA"; "AB CD"] 0 [3] = Some [None] ∧
  select_solutions 5 ["CASA"; "AB CD"] 2 [3; 1; 4] = None.
Proof.
  destruct (select_solutions_empty_pool 5 ["CASA"; "AB CD"]) as [H0 Hup].
  - reflexivity.
  - split; [apply H0 | apply Hup; lia].
Defined.

(** ** Editing the input row *)

Lemma set_row_same (s : State) (g : list string) (i : nat) :
  g = currentGuess s -> i = activeTileIndex s ->
  setActiveTileIndex i (setCurrentGuess g s) = s.
Proof. intros -> ->. by destruct s. Qed.

Lemma set_cursor_same (s : State) (i : nat) :
  i = activeTileIndex s -> setActiveTileIndex i s = s.
Proof. intros ->. by destruct s. Qed.

Lemma onKeyDown_backspace (L : nat) (s : State) :
  gameStatus s = playing ->
  onKeyDown L "BACKSPACE" s
  = if decide (currentGuess s !! activeTileIndex s ≠ Some "")
    then setCurrentGuess (JS.assign "" (activeTileIndex s) "" (currentGuess s)) s
    else setActiveTileIndex (activeTileIndex s - 1)
           (setCurrentGuess (JS.assign "" (activeTileIndex s - 1) "" (currentGuess s)) s).
Proof.
  intros Hplay. unfold onKeyDown. rewrite decide_False by (rewrite Hplay; auto).
  by rewrite decide_True.
Qed.

Lemma is_letter_key (key : string) :
  is_letter key = true ->
  key ≠ "BACKSPACE" ∧ key ≠ "ARROWLEFT" ∧ key ≠ "ARROWRIGHT" ∧ key ≠ "ENTER" ∧ key ≠ "".
Proof. intros H. split_and!; intros ->; discriminate H. Qed.

Lemma onKeyDown_letter (L : nat) (key : string) (s : State) :
  gameStatus s = playing -> is_letter key = true ->
  onKeyDown L key s
  = if decide (activeTileIndex s < L - 1)
    then setActiveTileIndex (activeTileIndex s + 1)
           (setCurrentGuess (JS.assign "" (activeTileIndex s) key (currentGuess s)) s)
    else setCurrentGuess (JS.assign "" (activeTileIndex s) key (currentGuess s)) s.
Proof.
  intros Hplay Hkey. destruct (is_letter_key key Hkey) as (H1 & H2 & H3 & H4 & _).
  unfold onKeyDown. rewrite decide_False by (rewrite Hplay; auto).
  rewrite !decide_False by done. by rewrite Hkey.
Qed.

(** X10: BACKSPACE with the cursor on slot 0 and that slot empty changes
    nothing. *)
Theorem backspace_at_start (L : nat) (s : State) :
  activeTileIndex s = 0 ->
  currentGuess s !! 0 = Some "" ->
  onKeyDown L "BACKSPACE" s = s.
Proof.
  intros Hcur Hslot. destruct (decide (gameStatus s = playing)) as [Hplay | Hplay].
  - rewrite onKeyDown_backspace by done. rewrite Hcur, Hslot.
    rewrite decide_False by auto. simpl.
    rewrite assign_in_range by (by eapply lookup_lt_Some).
    apply set_row_same; [by apply list_insert_id | done].
  - unfold onKeyDown. by rewrite decide_True.
Qed.

Lemma backspace_at_start_witness : onKeyDown 5 "BACKSPACE" demo_level1 = demo_level1.
Proof. apply (backspace_at_start 5 demo_level1); vm_compute; reflexivity. Defined.

(** X11: a letter typed on an empty slot is taken back by BACKSPACE: when the
    slot under the cursor is empty, and the next slot too unless the cursor is
    on the last slot, the letter followed by BACKSPACE gives the state back. *)
Theorem letter_then_backspace (L : nat) (key : string) (s : State) :
  gameStatus s = playing ->
  is_letter key = true ->
  currentGuess s !! activeTileIndex s = Some "" ->
  (activeTileIndex s < L - 1 -> currentGuess s !! (activeTileIndex s + 1) = Some "") ->
  onKeyDown L "BACKSPACE" (onKeyDown L key s) = s.
Proof.
  intros Hplay Hkey Hslot Hnext.
  pose proof (lookup_lt_Some _ _ _ Hslot) as Hlt.
  destruct (is_letter_key key Hkey) as (_ & _ & _ & _ & Hne).
  rewrite (onKeyDown_letter L key s Hplay Hkey).
  rewrite assign_in_range by done.
  destruct (decide (activeTileIndex s < L - 1)) as [Hin | Hlast].
  - rewrite onKeyDown_backspace by done. simpl.
    rewrite list_lookup_insert_ne by lia. rewrite (Hnext Hin).
    rewrite decide_False by auto.
    replace (activeTileIndex s + 1 - 1) with (activeTileIndex s) by lia.
    rewrite assign_in_range by (by rewrite length_insert).
    rewrite list_insert_insert_eq, (list_insert_id _ _ _ Hslot).
    by destruct s.
  - rewrite onKeyDown_backspace by done. simpl.
    rewrite list_lookup_insert_eq by done.
    rewrite decide_True by (intros [= ?]; done).
    rewrite assign_in_range by (by rewrite length_insert).
    rewrite list_insert_insert_eq, (list_insert_id _ _ _ Hslot).
    by destruct s.
Qed.

Lemma letter_then_backspace_witness :
  onKeyDown 5 "BACKSPACE" (onKeyDown 5 "Q" demo_level1) = demo_level1.
Proof.
  apply (letter_then_backspace 5 "Q" demo_level1).
  - vm_compute. reflexivity.
  - reflexivity.
  - vm_compute. reflexivity.
  - intros _. vm_compute. reflexivity.
Defined.

(** X13: the arrow keys move the cursor by one slot and undo each other
    inside the row; ARROWRIGHT on the last slot and ARROWLEFT on slot 0 change
    nothing. *)
Theorem arrows_undo_each_other (L : nat) (s : State) :
  gameStatus s = playing ->
  activeTileIndex s < L ->
  (activeTileIndex s + 1 < L ->
     onKeyDown L "ARROWLEFT" (onKeyDown L "ARROWRIGHT" s) = s) ∧
  (0 < activeTileIndex s ->
     onKeyDown L "ARROWRIGHT" (onKeyDown L "ARROWLEFT" s) = s) ∧
  (activeTileIndex s + 1 = L -> onKeyDown L "ARROWRIGHT" s = s) ∧
  (activeTileIndex s = 0 -> onKeyDown L "ARROWLEFT" s = s).
Proof.
  intros Hplay Hcur.
  assert (Hleft : forall s0, gameStatus s0 = playing ->
            onKeyDown L "ARROWLEFT" s0 = setActiveTileIndex (activeTileIndex s0 - 1) s0).
  { intros s0 H0. unfold onKeyDown. rewrite decide_False by (rewrite H0; auto).
    rewrite decide_False by done. by rewrite decide_True. }
  assert (Hright : forall s0, gameStatus s0 = playing ->
            onKeyDown L "ARROWRIGHT" s0
            = setActiveTileIndex (Nat.min (L - 1) (activeTileIndex s0 + 1)) s0).
  { intros s0 H0. unfold onKeyDown. rewrite decide_False by (rewrite H0; auto).
    rewrite !decide_False by done. by rewrite decide_True. }
  split_and!.
  - intros Hin. rewrite (Hright s Hplay), Hleft by done. simpl.
    replace (Nat.min (L - 1) (activeTileIndex s + 1) - 1) with (activeTileIndex s) by lia.
    by destruct s.
  - intros Hpos. rewrite (Hleft s Hplay), Hright by done. simpl.
    replace (Nat.min (L - 1) (activeTileIndex s - 1 + 1)) with (activeTileIndex s) by lia.
    by destruct s.
  - intros Hlast. rewrite (Hright s Hplay). apply set_cursor_same. lia.
  - intros Hzero. rewrite (Hleft s Hplay). apply set_cursor_same. lia.
Qed.

Lemma arrows_undo_each_other_witness :
  onKeyDown 5 "ARROWLEFT" (onKeyDown 5 "ARROWRIGHT" demo_level1) = demo_level1 ∧
  onKeyDown 5 "ARROWLEFT" demo_level1 = demo_level1.
Proof.
  destruct (arrows_undo_each_other 5 demo_level1) as (Hlr & _ & _ & Hl).
  - vm_compute. reflexivity.
  - vm_compute. lia.
  - split; [apply Hlr | apply Hl]; vm_compute; [lia | reflexivity].
Defined.

Lemma same_but_row_refl (s : State) : same_but_row s s.
Proof. by repeat split. Qed.

Lemma same_but_row_trans (s1 s2 s3 : State) :
  same_but_row s1 s2 -> same_but_row s2 s3 -> same_but_row s1 s3.
Proof.
  unfold same_but_row. intros H12 H23. destruct_and!. split_and!; congruence.
Qed.

Lemma concat_letters (cs : list ascii) :
  String.concat "" ((fun c => String c EmptyString) <$> cs) = String.string_of_list_ascii cs.
Proof.
  induction cs as [| c cs IH]; [done |].
  destruct cs as [| c' cs]; [done |].
  change (String.concat "" ((fun c => String c EmptyString) <$> c :: c' :: cs))
    with (String c (String.concat "" ((fun c => String c EmptyString) <$> c' :: cs))).
  by rewrite IH.
Qed.

Lemma string_of_split (w : string) : String.string_of_list_ascii (JS.split w) = w.
Proof. induction w as [| c w IH]; simpl; [done | by rewrite IH]. Qed.

(** The letters [cs] typed from slot [k] on. *)
Lemma type_letters_from (L : nat) (cs : list ascii) :
  forall (s : State) (k : nat),
    gameStatus s = playing ->
    activeTileIndex s = Nat.min k (L - 1) ->
    length (currentGuess s) = L ->
    k + length cs ≤ L ->
    Forall (fun c => capital c = true) cs ->
    currentGuess (type_letters L cs s)
    = take k (currentGuess s) ++ ((fun c => String c EmptyString) <$> cs)
        ++ drop (k + length cs) (currentGuess s) ∧
    activeTileIndex (type_letters L cs s) = Nat.min (k + length cs) (L - 1) ∧
    same_but_row s (type_letters L cs s).
Proof.
  induction cs as [| c cs IH]; intros s k Hplay Hcur Hlen Hfit Hcap.
  - simpl. rewrite Nat.add_0_r, take_drop. split_and!; [done | done |].
    apply same_but_row_refl.
  - simpl in Hfit. apply Forall_cons in Hcap as [Hc Hcap].
    assert (Hk : activeTileIndex s = k) by lia.
    assert (Hstep : onKeyDown L (String c EmptyString) s
                    = setActiveTileIndex (Nat.min (k + 1) (L - 1))
                        (setCurrentGuess (<[k := String c EmptyString]> (currentGuess s)) s)).
    { rewrite onKeyDown_letter by done. rewrite Hk.
      rewrite assign_in_range by lia. case_decide.
      - by replace (Nat.min (k + 1) (L - 1)) with (k + 1) by lia.
      - replace (Nat.min (k + 1) (L - 1)) with k by lia.
        symmetry. by apply set_cursor_same. }
    change (type_letters L (c :: cs) s)
      with (type_letters L cs (onKeyDown L (String c EmptyString) s)).
    rewrite Hstep.
    destruct (IH (setActiveTileIndex (Nat.min (k + 1) (L - 1))
                    (setCurrentGuess (<[k := String c EmptyString]> (currentGuess s)) s))
                 (k + 1)) as (Hrow & Hcursor & Hsame); simpl; try done.
    { by rewrite length_insert. }
    { lia. }
    rewrite Hrow, Hcursor. simpl. split_and!.
    + replace (k + 1) with (S k) by lia.
      rewrite (take_S_r _ k (String c EmptyString)) by (apply list_lookup_insert_eq; lia).
      rewrite take_insert_ge by lia. rewrite drop_insert_lt by lia.
      rewrite <- (assoc_L (++)). simpl.
      by replace (k + S (length cs)) with (S (k + length cs)) by lia.
    + f_equal. lia.
    + eapply same_but_row_trans; [| exact Hsame]. by repeat split.
Qed.

(** X12: what is typed is what is submitted: typing the WORD_LENGTH capital
    letters of a word of the validation vocabulary into a row with the cursor
    on slot 0 fills the row with these letters, ENTER is then accepted with
    that word, and the word is appended to the guesses. *)
Theorem typed_word_is_submitted (L : nat) (w : string) (s : State) :
  gameStatus s = playing ->
  activeTileIndex s = 0 ->
  length (currentGuess s) = L ->
  String.length w = L ->
  Forall (fun c => capital c = true) (JS.split w) ->
  w ∈ validGuessesSet s ->
  let s' := type_letters L (JS.split w) s in
  currentGuess s' = (fun c => String c EmptyString) <$> JS.split w ∧
  accepted L s' w ∧
  guesses (onKeyDown L "ENTER" s') = guesses s ++ [w].
Proof.
  intros Hplay Hcur Hlen Hw Hcap Hvalid. simpl.
  destruct (type_letters_from L (JS.split w) s 0 Hplay) as (Hrow & _ & Hsame);
    [by rewrite Hcur | done | rewrite split_length; simpl; lia | done |].
  simpl in Hrow.
  rewrite drop_ge, app_nil_r in Hrow by (rewrite split_length; lia).
  destruct Hsame as (_ & _ & _ & _ & Hguesses & Hstatus & _ & _ & _ & _ & _ & Hset & _).
  assert (Hacc : accepted L (type_letters L (JS.split w) s) w).
  { unfold accepted, incomplete. rewrite Hrow, concat_letters, string_of_split.
    split_and!; [congruence | | done | by rewrite Hset].
    intros [Hbad | Hbad]; [congruence |].
    apply list_elem_of_fmap in Hbad as (c & Hc & _). discriminate Hc. }
  split_and!; [exact Hrow | exact Hacc |].
  rewrite (onKeyDown_accepted L _ w Hacc). unfold accept.
  destruct (JS.forEach _ _ _) as [[ns tp] sc]. simpl. by rewrite Hguesses.
Qed.

Lemma typed_word_is_submitted_witness :
  guesses (onKeyDown 5 "ENTER" (type_letters 5 (JS.split "PORTA") demo_level1)) = ["PORTA"].
Proof.
  destruct (typed_word_is_submitted 5 "PORTA" demo_level1) as (_ & _ & Hguesses).
  - vm_compute. reflexivity.
  - vm_compute. reflexivity.
  - vm_compute. reflexivity.
  - reflexivity.
  - by_computation.
  - by_computation.
  - rewrite Hguesses. vm_compute. reflexivity.
Defined.

(** ** Hints *)

(** X14: a hint that is not refused fills an empty, unrevealed slot with the
    letter the solution of the first unsolved board has in that slot, records
    it for that board, and leaves the other slots as they are. *)
Theorem hint_reveals_solution_letter (L r : nat) (s : State) :
  wf L s ->
  gameStatus s = playing ->
  ¬ hint_refused s ->
  ∃ s' cur target index letter,
    handleHint L r s = Some s' ∧
    first_unsolved (solvedIndices s) = Some cur ∧
    solutions s !! cur = Some target ∧
    currentGuess s !! index = Some "" ∧
    not_revealed (revealedHints s) index = true ∧
    JS.char_at target index = Some letter ∧
    currentGuess s' !! index = Some letter ∧
    revealedHints s' !! index = Some letter ∧
    hintedSolutionIndex s' = Some cur ∧
    forall i, i ≠ index -> currentGuess s' !! i = currentGuess s !! i.
Proof.
  intros Hwf Hplay Hnot.
  destruct (handleHint_cases L r s Hwf Hplay)
    as [[Hlt _] | [(_ & Havail & _)
                  | (_ & _ & cur & index & target & letter
                     & Hcur & Hindex & Htarget & Hletter & Hres)]].
  - exfalso. apply Hnot. by left.
  - exfalso. apply Hnot. by right.
  - apply list_elem_of_lookup_2, elem_of_availableIndices in Hindex as [Hslot Hfree].
    exists (revealed_state s cur index letter), cur, target, index, letter.
    split_and!; try done; simpl.
    + apply list_lookup_insert_eq. by eapply lookup_lt_Some.
    + apply lookup_insert_eq.
    + intros i Hi. by apply list_lookup_insert_ne.
Qed.

Lemma hint_reveals_solution_letter_witness :
  ∃ s', handleHint 5 0 demo_level1 = Some s' ∧ currentGuess s' !! 0 = Some "T".
Proof.
  destruct (hint_reveals_solution_letter 5 0 demo_level1)
    as (s' & cur & target & index & letter & Hs' & _).
  - apply demo_wf, demo_level1_reachable.
  - vm_compute. reflexivity.
  - unfold hint_refused. vm_compute.
    intros [Hlow | Hnone]; [discriminate Hlow | discriminate Hnone].
  - exists s'. split; [exact Hs' |].
    assert (Hc : handleHint 5 0 demo_level1 = Some (revealed_state demo_level1 0 0 "T"))
      by (vm_compute; reflexivity).
    rewrite Hc in Hs'. injection Hs' as <-. vm_compute. reflexivity.
Defined.

(** ** What every state of the component satisfies *)

Section Soundness.

Variable WORD_LENGTH : nat.
Variable WORDS : list string.
Variable VALID_GUESSES : list string.

Lemma sound_feedback (shake : bool) (text : Toast) (s : State) :
  sound WORD_LENGTH WORDS s -> sound WORD_LENGTH WORDS (feedback shake text s).
Proof. intros []. by constructor. Qed.

Lemma sound_setActiveTileIndex (i : nat) (s : State) :
  sound WORD_LENGTH WORDS s -> sound WORD_LENGTH WORDS (setActiveTileIndex i s).
Proof. intros []. by constructor. Qed.

Lemma sound_setCurrentGuess (g : list string) (s : State) :
  sound WORD_LENGTH WORDS s -> sound WORD_LENGTH WORDS (setCurrentGuess g s).
Proof. intros []. by constructor. Qed.

Lemma sound_accept (w : string) (s : State) :
  wf WORD_LENGTH s -> gameStatus s = playing -> w ∈ validGuessesSet s ->
  sound WORD_LENGTH WORDS s -> sound WORD_LENGTH WORDS (accept WORD_LENGTH w s).
Proof.
  intros Hwf Hplay Hvalid Hs. rewrite accept_eq by apply Hwf. destruct Hs.
  specialize (snd_budget_playing0 Hplay).
  constructor; simpl.
  - done.
  - rewrite length_app. simpl. lia.
  - rewrite length_app. simpl. destruct (forallb id _); [done |].
    case_decide as Hmax; [done |]. simpl in Hmax. lia.
  - done.
  - apply Forall_app. split; [done |]. by apply Forall_singleton.
  - apply Z.add_nonneg_nonneg; [done |]. apply Z.mul_nonneg_nonneg; lia.
  - done.
  - intros i v. destruct (hintedSolutionIndex s) as [h |] eqn:Hh;
      [destruct (JS.truthy_at _ h) |]; try done; rewrite ?Hh; auto.
Qed.

Lemma sound_onKeyDown (key : string) (s : State) :
  wf WORD_LENGTH s -> sound WORD_LENGTH WORDS s ->
  sound WORD_LENGTH WORDS (onKeyDown WORD_LENGTH key s).
Proof.
  intros Hwf Hs. unfold onKeyDown.
  case_decide as Hplay; [done |].
  case_decide.
  { case_decide.
    - by apply sound_setCurrentGuess.
    - by apply sound_setActiveTileIndex, sound_setCurrentGuess. }
  case_decide; [by apply sound_setActiveTileIndex |].
  case_decide; [by apply sound_setActiveTileIndex |].
  case_decide.
  { unfold submit. case_decide; [by apply sound_feedback |].
    case_decide as Hvalid; [by apply sound_feedback |].
    by apply sound_accept. }
  destruct (is_letter key); [| done].
  case_decide.
  - by apply sound_setActiveTileIndex, sound_setCurrentGuess.
  - by apply sound_setCurrentGuess.
Qed.

Lemma sound_handleHint (r : nat) (s s' : State) :
  wf WORD_LENGTH s -> gameStatus s = playing -> sound WORD_LENGTH WORDS s ->
  handleHint WORD_LENGTH r s = Some s' -> sound WORD_LENGTH WORDS s'.
Proof.
  intros Hwf Hplay Hs.
  destruct (handleHint_cases WORD_LENGTH r s Hwf Hplay)
    as [[_ ->] | [(_ & _ & cur & Hcur & ->)
                 | (Hge & _ & cur & index & target & letter
                    & Hcur & Hindex & Htarget & Hletter & ->)]]; intros [= <-].
  - by apply sound_feedback.
  - apply sound_feedback. destruct (hintedSolutionIndex s); [done |].
    destruct Hs. by constructor.
  - destruct Hs. destruct snd_hint_cost0 as [n Hn]. constructor; simpl; try done.
    + lia.
    + exists (S n). lia.
    + intros i v Hv. destruct (decide (i = index)) as [-> | Hne].
      * rewrite lookup_insert_eq in Hv. injection Hv as <-. by exists cur, target.
      * rewrite lookup_insert_ne in Hv by done.
        destruct (snd_hints0 i v Hv) as (h & target' & Hh & Ht & Hc).
        exists h, target'. split; [| done].
        apply (wf_hint_target _ _ Hwf) in Hh. congruence.
Qed.

Lemma sound_initGame (lvl : nat) (draws : list nat) (s s' : State) :
  (0 ≤ score s)%Z ->
  (forall w, w ∈ validGuessesSet s -> String.length w = WORD_LENGTH) ->
  initGame WORD_LENGTH WORDS lvl draws s = Some s' ->
  sound WORD_LENGTH WORDS s'.
Proof.
  intros Hscore Hvalid. unfold initGame, select_solutions.
  destruct (select_loop _ _ draws []) as [newSolutions |] eqn:Hsel; [| done]. simpl.
  destruct (mapM id newSolutions) as [sols |] eqn:Hdef; [| done]. simpl.
  intros [= <-]. apply mapM_id_fmap in Hdef as ->.
  apply select_loop_sound in Hsel as (_ & _ & Hfrom); [| simpl; lia | apply NoDup_nil_2].
  constructor; simpl; try done.
  - apply Forall_forall. intros w Hw.
    destruct (Hfrom (Some w)) as [Hin | [r Hin]].
    + apply list_elem_of_fmap. by exists w.
    + by apply elem_of_nil in Hin.
    + symmetry in Hin. apply list_elem_of_lookup_2, list_elem_of_filter in Hin as [Hp Hin].
      unfold playable in Hp. apply andb_true_iff in Hp as [_ Hp].
      by apply negb_true_iff in Hp.
  - unfold maxChallenges. lia.
  - intros _. unfold maxChallenges. lia.
  - by exists 0.
Qed.

Lemma sound_step (e : Event) (s s' : State) :
  wf WORD_LENGTH s -> sound WORD_LENGTH WORDS s ->
  step WORD_LENGTH WORDS e s = Some s' -> sound WORD_LENGTH WORDS s'.
Proof.
  intros Hwf Hs. destruct e as [key | r | i | draws | draws | draws | ws | |]; simpl.
  - intros [= <-]. by apply sound_onKeyDown.
  - case_decide; [| done]. by apply sound_handleHint.
  - case_decide; [| done]. intros [= <-]. by apply sound_setActiveTileIndex.
  - case_decide; [| done]. apply sound_initGame; apply Hs.
  - case_decide; [| done]. apply sound_initGame; apply Hs.
  - case_decide; [| done]. case_decide; [by intros [= <-] |].
    destruct (initGame _ _ 0 draws s) as [s0 |] eqn:Hinit; [| done]. simpl.
    intros [= <-]. apply sound_initGame in Hinit as []; [| apply Hs | apply Hs].
    by constructor.
  - intros [= <-]. destruct Hs. constructor; simpl; try done.
    + intros w Hw. apply elem_of_union in Hw as [Hw | Hw]; [by apply snd_valid_length0 |].
      apply elem_of_list_to_set, list_elem_of_filter in Hw as [[Hw _] _]. done.
    + eapply Forall_impl; [exact snd_guesses0 |]. intros w Hw. apply elem_of_union. by left.
  - intros [= <-]. destruct Hs. by constructor.
  - intros [= <-]. destruct Hs. by constructor.
Qed.

Lemma reachable_sound (s : State) :
  0 < WORD_LENGTH ->
  reachable WORD_LENGTH WORDS VALID_GUESSES s -> sound WORD_LENGTH WORDS s.
Proof.
  intros Hpos. induction 1 as [draws s Hmount | e s s' Hreach IH Hstep].
  - apply (sound_initGame 0 draws (first_render WORD_LENGTH VALID_GUESSES) s);
      [done | | exact Hmount].
    intros w Hw. simpl in Hw.
    apply elem_of_list_to_set, list_elem_of_filter in Hw as [Hp _].
    unfold playable in Hp. apply andb_true_iff in Hp as [Hp _].
    by apply bool_decide_eq_true in Hp.
  - apply (sound_step e s s'); [| done | done]. by eapply reachable_wf.
Qed.

End Soundness.

(** With a playable word in WORDS the selection never draws [undefined]:
    what the loop returns are words, so that [initGame] returns a state
    exactly when the loop ends. *)
Lemma select_loop_words (validWords : list string) (n : nat) (draws : list nat)
    (acc res : list (option string)) :
  validWords ≠ [] ->
  Forall is_Some acc ->
  select_loop validWords n draws acc = Some res ->
  Forall is_Some res.
Proof.
  intros Hne. revert acc. induction draws as [| r draws IH]; intros acc Hacc;
    rewrite select_loop_unfold; case_decide as Hlt; try done.
  - intros [= <-]. done.
  - simpl. case_decide as Hin; [by apply IH |].
    apply IH. apply Forall_app. split; [done |]. apply Forall_singleton.
    apply lookup_lt_is_Some_2, random_index_lt.
    destruct validWords; [done | simpl; lia].
  - intros [= <-]. done.
Qed.

Lemma initGame_ends_with_loop (L : nat) (WORDS : list string) (lvl : nat)
    (draws : list nat) (s : State) :
  (∃ w, w ∈ WORDS ∧ playable L w = true) ->
  is_Some (initGame L WORDS lvl draws s) <-> is_Some (select_solutions L WORDS lvl draws).
Proof.
  intros (w & Hw & Hplayable). unfold initGame.
  destruct (select_solutions L WORDS lvl draws) as [res |] eqn:Hres; simpl.
  - split; [done | intros _].
    assert (Hwords : Forall is_Some res).
    { apply (select_loop_words _ _ _ [] res) in Hres; [done | | done].
      intros Hnil. assert (Hin : w ∈ filter (fun w => playable L w = true) WORDS).
      { by apply list_elem_of_filter. }
      rewrite Hnil in Hin. by apply not_elem_of_nil in Hin. }
    assert (Hsols : is_Some (mapM id res)).
    { clear Hres. induction Hwords as [| o l [x ->] _ IH]; [done |].
      destruct IH as [k Hk]. exists (x :: k). simpl. by rewrite Hk. }
    destruct Hsols as [sols ->]. done.
  - split; intros [x Hx]; discriminate Hx.
Qed.

(** X15: when WORDS contains a playable word (WORD_LENGTH letters, no space),
    in every state of the component there are level + 1 boards, each with a
    mask entry, the row has WORD_LENGTH slots with the cursor on one of them,
    and the solutions are pairwise distinct words of WORDS of WORD_LENGTH
    letters without a space.  Without a playable word the selection at level
    0 picks [undefined], which is no word of WORDS. *)
Theorem reachable_shape (L : nat) (WORDS VALID_GUESSES : list string) (s : State) :
  0 < L ->
  (∃ w, w ∈ WORDS ∧ playable L w = true) ->
  reachable L WORDS VALID_GUESSES s ->
  length (solutions s) = level s + 1 ∧
  length (solvedIndices s) = level s + 1 ∧
  length (currentGuess s) = L ∧
  activeTileIndex s < L ∧
  NoDup (solutions s) ∧
  Forall (fun w => w ∈ WORDS ∧ String.length w = L ∧ JS.includes_space w = false)
         (solutions s).
Proof.
  intros Hpos _ Hreach.
  pose proof (reachable_wf L WORDS VALID_GUESSES s Hpos Hreach) as Hwf.
  pose proof (reachable_sound L WORDS VALID_GUESSES s Hpos Hreach) as Hs.
  destruct Hwf, Hs. unfold numWords in *. split_and!; try done; [congruence |].
  apply Forall_forall. intros w Hw.
  rewrite Forall_forall in snd_solutions0, wf_solution_length0.
  destruct (snd_solutions0 w Hw). split_and!; auto.
Qed.

Lemma reachable_shape_witness :
  length (solutions demo_level1) = 2 ∧ NoDup (solutions demo_level1).
Proof.
  assert (Hword : ∃ w, w ∈ demo_words ∧ playable 5 w = true).
  { exists "TERMO". split; [vm_compute; left | reflexivity]. }
  destruct (reachable_shape 5 demo_words demo_valid demo_level1 ltac:(lia) Hword
              demo_level1_reachable) as (Hlen & _ & _ & _ & Hnd & _).
  split; [rewrite Hlen; vm_compute; reflexivity | exact Hnd].
Defined.

(** X16: the guesses never exceed the attempt budget 6 + level; while the
    game is on there is an attempt left, and a lost level has used exactly
    its budget. *)
Theorem attempt_budget (L : nat) (WORDS VALID_GUESSES : list string) (s : State) :
  0 < L ->
  reachable L WORDS VALID_GUESSES s ->
  length (guesses s) ≤ 6 + level s ∧
  (gameStatus s = playing -> length (guesses s) < 6 + level s) ∧
  (gameStatus s = lost -> length (guesses s) = 6 + level s).
Proof.
  intros Hpos Hreach.
  pose proof (reachable_wf L WORDS VALID_GUESSES s Hpos Hreach) as Hwf.
  pose proof (reachable_sound L WORDS VALID_GUESSES s Hpos Hreach) as Hs.
  destruct Hwf, Hs. unfold maxChallenges in *. split_and!; [done | done |].
  intros Hlost. specialize (wf_lost0 Hlost). lia.
Qed.

Lemma attempt_budget_witness : length (guesses demo_again) ≤ 6 + level demo_again.
Proof.
  apply (attempt_budget 5 demo_words demo_valid demo_again ltac:(lia) demo_again_reachable).
Defined.

(** X17: every submitted guess is a word of the validation set, and every
    word of the validation set has WORD_LENGTH letters. *)
Theorem guesses_are_valid_words (L : nat) (WORDS VALID_GUESSES : list string) (s : State) :
  0 < L ->
  reachable L WORDS VALID_GUESSES s ->
  Forall (fun w => w ∈ validGuessesSet s ∧ String.length w = L) (guesses s) ∧
  forall w, w ∈ validGuessesSet s -> String.length w = L.
Proof.
  intros Hpos Hreach.
  pose proof (reachable_sound L WORDS VALID_GUESSES s Hpos Hreach) as [].
  split; [| done]. eapply Forall_impl; [exact snd_guesses0 |]. intros w Hw. auto.
Qed.

Lemma guesses_are_valid_words_witness :
  Forall (fun w => w ∈ validGuessesSet demo_again ∧ String.length w = 5)
         (guesses demo_again).
Proof.
  apply (guesses_are_valid_words 5 demo_words demo_valid demo_again ltac:(lia)
           demo_again_reachable).
Defined.

(** X18: the score is never negative, and the hint cost is 5 plus a multiple
    of 5. *)
Theorem score_never_negative (L : nat) (WORDS VALID_GUESSES : list string) (s : State) :
  0 < L ->
  reachable L WORDS VALID_GUESSES s ->
  (0 ≤ score s)%Z ∧ (5 ≤ hintCost s)%Z ∧ (hintCost s mod 5 = 0)%Z.
Proof.
  intros Hpos Hreach.
  pose proof (reachable_sound L WORDS VALID_GUESSES s Hpos Hreach) as [].
  destruct snd_hint_cost0 as [n Hn]. split_and!; [done | lia |].
  rewrite Hn. replace (5 + 5 * Z.of_nat n)%Z with ((1 + Z.of_nat n) * 5)%Z by lia.
  apply Z.mod_mul. lia.
Qed.

Lemma score_never_negative_witness : (0 ≤ score demo_hinted)%Z.
Proof.
  apply (score_never_negative 5 demo_words demo_valid demo_hinted ltac:(lia)
           demo_hinted_reachable).
Defined.

(** X19: every revealed hint holds the letter that the solution of the hint
    target has in that slot, and the hint target, when set, is the first
    unsolved board. *)
Theorem hints_are_truthful (L : nat) (WORDS VALID_GUESSES : list string) (s : State) :
  0 < L ->
  reachable L WORDS VALID_GUESSES s ->
  (forall h, hintedSolutionIndex s = Some h ->
     solvedIndices s !! h = Some false ∧
     forall j, j < h -> solvedIndices s !! j = Some true) ∧
  (forall i v, revealedHints s !! i = Some v ->
     i < L ∧
     ∃ h target, hintedSolutionIndex s = Some h ∧ solutions s !! h = Some target ∧
                 JS.char_at target i = Some v).
Proof.
  intros Hpos Hreach.
  pose proof (reachable_wf L WORDS VALID_GUESSES s Hpos Hreach) as Hwf.
  pose proof (reachable_sound L WORDS VALID_GUESSES s Hpos Hreach) as Hs.
  split.
  - intros h Hh. apply (wf_hint_target _ _ Hwf) in Hh. by apply first_unsolved_Some.
  - intros i v Hv. split; [by apply (wf_hint_slots _ _ Hwf i v) |].
    by apply (snd_hints _ _ _ Hs).
Qed.

Lemma hints_are_truthful_witness :
  ∃ h target, hintedSolutionIndex demo_hinted = Some h ∧
              solutions demo_hinted !! h = Some target ∧
              JS.char_at target 0 = Some "T".
Proof.
  destruct (hints_are_truthful 5 demo_words demo_valid demo_hinted ltac:(lia)
              demo_hinted_reachable) as [_ Hhints].
  destruct (Hhints 0 "T") as [_ H]; [vm_compute; reflexivity | exact H].
Defined.

(** ** The dictionary *)

(** X20: loading the dictionary cannot fail and touches the validation set
    and the loaded flag only; the set grows, by words of WORD_LENGTH capital
    letters taken from the loaded list, and loading the same list once more
    changes nothing. *)
Theorem dictionary_load_is_a_union (L : nat) (WORDS ws : list string) (s : State) :
  ∃ s', step L WORDS (DictionaryLoaded ws) s = Some s' ∧
    validGuessesSet s ⊆ validGuessesSet s' ∧
    (forall w, w ∈ validGuessesSet s' ->
       w ∈ validGuessesSet s ∨
       (w ∈ ws ∧ String.length w = L ∧ all_capitals w = true)) ∧
    same_but_dictionary s s' ∧
    isDictionaryLoaded s' = true ∧
    step L WORDS (DictionaryLoaded ws) s' = Some s'.
Proof.
  eexists. split; [reflexivity |]. simpl. split_and!.
  - apply union_subseteq_l.
  - intros w Hw. apply elem_of_union in Hw as [Hw | Hw]; [by left |]. right.
    apply elem_of_list_to_set, list_elem_of_filter in Hw as [[Hlen Hcap] Hin]. done.
  - by repeat split.
  - done.
  - do 2 f_equal. by rewrite <- (assoc_L (∪)), (idemp_L (∪)).
Qed.

(** ** The outcome of a submission *)

Lemma solved_after_same (w : string) (solved : list bool) (sols : list string) :
  length solved = length sols ->
  (forall i, sols !! i = Some w -> solved !! i = Some true) ->
  solved_after w solved sols = solved.
Proof.
  intros Hlen Hw. apply list_eq. intros i.
  destruct (solved !! i) as [b |] eqn:Hb.
  - destruct (lookup_lt_is_Some_2 sols i) as [sol Hsol].
    { apply lookup_lt_Some in Hb. lia. }
    rewrite (solved_after_lookup w _ _ i b sol Hb Hsol). f_equal.
    destruct (decide (w = sol)) as [<- | Hne].
    + apply Hw in Hsol. rewrite Hsol in Hb. by injection Hb as <-.
    + rewrite bool_decide_eq_false_2 by done. apply orb_false_r.
  - apply lookup_ge_None. rewrite solved_after_length by done.
    apply lookup_ge_None in Hb. lia.
Qed.

(** X21: an accepted word that is the solution of no unsolved board leaves
    mask and score as they are and uses up an attempt: the level is lost when
    that was the last attempt of the budget, and goes on otherwise. *)
Theorem wrong_guess_uses_an_attempt (L : nat) (s : State) (w : string) :
  wf L s ->
  accepted L s w ->
  (forall i, solutions s !! i = Some w -> solvedIndices s !! i = Some true) ->
  let s' := onKeyDown L "ENTER" s in
  solvedIndices s' = solvedIndices s ∧
  score s' = score s ∧
  length (guesses s') = length (guesses s) + 1 ∧
  gameStatus s' = if decide (6 + level s ≤ length (guesses s) + 1) then lost else playing.
Proof.
  intros Hwf Hacc Hwrong. simpl.
  rewrite (onKeyDown_accepted L s w Hacc), accept_eq by apply Hwf. simpl.
  rewrite (solved_after_same w _ _ (wf_solved_length _ _ Hwf) Hwrong).
  rewrite (solving_boards_none w _ _ Hwrong). rewrite length_app. simpl.
  destruct Hacc as (Hplay & _).
  assert (Hopen : forallb id (solvedIndices s) = false).
  { apply not_true_is_false. intros Hall. apply forallb_id_Forall in Hall.
    apply (wf_won _ _ Hwf) in Hall. congruence. }
  rewrite Hopen. unfold maxChallenges. split_and!; [done | lia | done |].
  by rewrite Hplay.
Qed.

Lemma wrong_guess_uses_an_attempt_witness :
  gameStatus (onKeyDown 5 "ENTER" demo_hinted) = playing ∧
  score (onKeyDown 5 "ENTER" demo_hinted) = score demo_hinted.
Proof.
  destruct (wrong_guess_uses_an_attempt 5 demo_hinted "PORTA") as (_ & Hscore & _ & Hstatus).
  - apply demo_wf, demo_hinted_reachable.
  - unfold accepted. split_and!; by_computation.
  - intros i. vm_compute.
    destruct i as [| [| i]]; intros Hi; discriminate Hi.
  - split; [rewrite Hstatus; vm_compute; reflexivity | exact Hscore].
Defined.

(** X22: an accepted word that solves the last unsolved board wins the
    level, also on the last attempt of the budget. *)
Theorem solving_last_board_wins (L : nat) (s : State) (w : string) (i : nat) :
  wf L s ->
  accepted L s w ->
  solutions s !! i = Some w ->
  (forall j, j ≠ i -> j < length (solutions s) -> solvedIndices s !! j = Some true) ->
  gameStatus (onKeyDown L "ENTER" s) = won.
Proof.
  intros Hwf Hacc Hw Hothers.
  rewrite (onKeyDown_accepted L s w Hacc), accept_eq by apply Hwf. simpl.
  assert (Hall : forallb id (solved_after w (solvedIndices s) (solutions s)) = true).
  { apply forallb_id_Forall, Forall_lookup. intros j b Hb.
    pose proof (lookup_lt_Some _ _ _ Hb) as Hj.
    rewrite solved_after_length in Hj by apply Hwf.
    destruct (lookup_lt_is_Some_2 (solvedIndices s) j) as [b0 Hb0].
    { by rewrite (wf_solved_length _ _ Hwf). }
    destruct (lookup_lt_is_Some_2 (solutions s) j Hj) as [sol Hsol].
    rewrite (solved_after_lookup w _ _ j b0 sol Hb0 Hsol) in Hb. injection Hb as <-.
    destruct (decide (j = i)) as [-> | Hne].
    - rewrite Hw in Hsol. injection Hsol as <-.
      rewrite bool_decide_eq_true_2 by done. apply orb_true_r.
    - rewrite (Hothers j Hne Hj) in Hb0. by injection Hb0 as <-. }
  by rewrite Hall.
Qed.

Lemma solving_last_board_wins_witness : gameStatus (onKeyDown 5 "ENTER" demo_typed) = won.
Proof.
  apply (solving_last_board_wins 5 demo_typed "TERMO" 0).
  - apply demo_wf, demo_typed_reachable.
  - unfold accepted. split_and!; by_computation.
  - vm_compute. reflexivity.
  - intros j Hne. vm_compute. intros Hj. lia.
Defined.
